(** * Subspace-gated LoReFT intervention and dataset preprocessing

    A shallow embedding of the code cell of
    [examples/composition/compreft.ipynb] that defines

    - the subspace partitions [HELLASWAG_SUBSPACE] / [INSTRUCT_SUBSPACE],
    - [preprocess_hellaswag_de_for_reft] and
      [preprocess_ultrafeedback_for_reft],
    - [SubloreftIntervention.forward].

    Tensors are nested lists that carry the sizes of their inner
    dimensions; Python exceptions are an error result.  Scalars are the
    elements of an arbitrary commutative ring: rounding of the machine
    number formats and the final [.to(base.dtype)] cast are idealised as
    exact arithmetic. *)

From Stdlib Require Import ZArith Ring_theory Ring.
From stdpp Require Import base tactics option list gmap strings.

#[local] Set Warnings "-register-all".

Local Open Scope Z_scope.
Local Open Scope nat_scope.

(** [map] on lists is stdpp's [fmap], so that its list lemmas apply. *)
Abbreviation map := (fmap (M := list)) (only parsing).

(** ** Python exceptions and fallible computations *)

Inductive exn : Set :=
| AssertionError
| IndexError
| KeyError
| RuntimeError
| TypeError
| ValueError.

Inductive result (A : Type) : Type :=
| Ok (a : A)
| Err (e : exn).
Arguments Ok {A} a.
Arguments Err {A} e.

#[global] Instance result_ret : MRet result := fun A a => Ok a.
#[global] Instance result_bind : MBind result := fun A B f m =>
  match m with
  | Ok a => f a
  | Err e => Err e
  end.

#[global] Instance result_fmap : FMap result := fun A B f m =>
  match m with
  | Ok a => Ok (f a)
  | Err e => Err e
  end.

(** [try_all f l] runs [f] on the elements left to right and stops at the
    first exception. *)
Fixpoint try_all {A B} (f : A -> result B) (l : list A) : result (list B) :=
  match l with
  | [] => Ok []
  | x :: l' => y ← f x; ys ← try_all f l'; Ok (y :: ys)
  end.

(** ** Scalars *)

Class Scalar (R : Type) : Type := {
  s0 : R;
  s1 : R;
  sadd : R -> R -> R;
  smul : R -> R -> R;
  ssub : R -> R -> R;
  sopp : R -> R;
  scalar_ring : ring_theory s0 s1 sadd smul ssub sopp (@eq R)
}.

#[global] Instance Z_Scalar : Scalar Z := {|
  s0 := 0%Z; s1 := 1%Z;
  sadd := Z.add; smul := Z.mul; ssub := Z.sub; sopp := Z.opp;
  scalar_ring := Zth
|}.

(** ** Tensors *)

Section Tensors.
Context {R : Type} `{Scalar R}.

(** A 2-d tensor: [length (rows M)] rows of [cols M] entries. *)
Record Mat : Type := mkMat {
  cols : nat;
  rows : list (list R)
}.

(** A 3-d tensor of shape [(length (mats X), seq_len X, feat X)]. *)
Record Tensor3 : Type := mkT3 {
  seq_len : nat;
  feat : nat;
  mats : list (list (list R))
}.

Definition wf_rows (n : nat) (M : list (list R)) : Prop :=
  Forall (fun row => length row = n) M.

Definition wf_mat (M : Mat) : Prop := wf_rows (cols M) (rows M).

Definition wf_tensor (X : Tensor3) : Prop :=
  Forall (fun M => length M = seq_len X /\ wf_rows (feat X) M) (mats X).

Definition shape2 (M : Mat) : nat * nat := (length (rows M), cols M).

Definition shape3 (X : Tensor3) : nat * nat * nat :=
  (length (mats X), seq_len X, feat X).

Definition vsum (l : list R) : R := foldr sadd s0 l.

(** The zero vectors. *)
Definition all_zero (u : list R) : Prop := Forall (fun a => a = s0) u.

Definition dot (u v : list R) : R := vsum (zip_with smul u v).

Definition col (c : nat) (M : list (list R)) : list R :=
  map (fun row => nth c row s0) M.

(** [M.T] *)
Definition transpose (M : Mat) : Mat :=
  {| cols := length (rows M);
     rows := map (fun c => col c (rows M)) (seq 0 (cols M)) |}.

(** One row of a matrix product: [x @ M]. *)
Definition vec_mat (x : list R) (M : Mat) : list R :=
  map (fun c => dot x (col c (rows M))) (seq 0 (cols M)).

(** [f] applied to every vector along the last dimension, the results
    having [n] entries. *)
Definition rows_map (f : list R -> list R) (n : nat) (X : Tensor3) : Tensor3 :=
  {| seq_len := seq_len X; feat := n; mats := map (map f) (mats X) |}.

(** [torch.matmul(X, W)] for a 3-d [X] and a 2-d [W]. *)
Definition matmul (X : Tensor3) (W : Mat) : result Tensor3 :=
  if decide (feat X = length (rows W)) then
    Ok (rows_map (fun x => vec_mat x W) (cols W) X)
  else Err RuntimeError.

(** [torch.bmm(X, Y)]: one matrix product per batch entry. *)
Definition bmm (X Y : Tensor3) : result Tensor3 :=
  if decide (length (mats X) = length (mats Y) /\ feat X = seq_len Y) then
    Ok {| seq_len := seq_len X; feat := feat Y;
          mats := zip_with
                    (fun x y => map (fun r => vec_mat r (mkMat (feat Y) y)) x)
                    (mats X) (mats Y) |}
  else Err RuntimeError.

(** Broadcasting of one dimension: sizes agree or one of them is 1. *)
Definition broadcast_dim (a b : nat) : result nat :=
  if decide (a = b) then Ok a
  else if decide (a = 1) then Ok b
  else if decide (b = 1) then Ok a
  else Err RuntimeError.

Definition expand {A} (n : nat) (l : list A) : list A :=
  match l with
  | [x] => replicate n x
  | _ => l
  end.

Definition expand3 (b s f : nat) (X : Tensor3) : list (list (list R)) :=
  expand b (map (fun M => expand s (map (expand f) M)) (mats X)).

(** An elementwise binary operator with broadcasting ([X + Y], [X - Y]). *)
Definition broadcast_op (op : R -> R -> R) (X Y : Tensor3) : result Tensor3 :=
  b ← broadcast_dim (length (mats X)) (length (mats Y));
  s ← broadcast_dim (seq_len X) (seq_len Y);
  f ← broadcast_dim (feat X) (feat Y);
  Ok {| seq_len := s; feat := f;
        mats := zip_with (zip_with (zip_with op))
                  (expand3 b s f X) (expand3 b s f Y) |}.

Definition tensor_add : Tensor3 -> Tensor3 -> result Tensor3 := broadcast_op sadd.
Definition tensor_sub : Tensor3 -> Tensor3 -> result Tensor3 := broadcast_op ssub.

(** An elementwise function. *)
Definition tensor_map (f : R -> R) (X : Tensor3) : Tensor3 :=
  rows_map (map f) (feat X) X.

(** A Python index into a dimension of size [n]; negative indices count
    from the end. *)
Definition norm_index (n : nat) (j : Z) : result nat :=
  if decide (0 <= j < Z.of_nat n)%Z then Ok (Z.to_nat j)
  else if decide (- Z.of_nat n <= j < 0)%Z then Ok (Z.to_nat (j + Z.of_nat n))
  else Err IndexError.

Definition gather (js : list nat) (row : list R) : list R :=
  map (fun j => nth j row s0) js.

(** The columns [js] of the rows [M], in the order of [js]. *)
Definition select (js : list nat) (M : list (list R)) : Mat :=
  {| cols := length js; rows := map (gather js) M |}.

(** [X[i, :, idx]] *)
Definition index_example (X : Tensor3) (i : nat) (idx : list Z) : result Mat :=
  match mats X !! i with
  | None => Err IndexError
  | Some M =>
      js ← try_all (norm_index (feat X)) idx;
      Ok (select js M)
  end.

(** [W[..., idx]] *)
Definition index_columns (W : Mat) (idx : list Z) : result Mat :=
  js ← try_all (norm_index (cols W)) idx;
  Ok (select js (rows W)).

(** [torch.stack(Ms, dim=0)] *)
Definition stack (Ms : list Mat) : result Tensor3 :=
  match Ms with
  | [] => Err RuntimeError
  | M :: Ms' =>
      if decide (Forall (fun M' => shape2 M' = shape2 M) Ms') then
        Ok {| seq_len := length (rows M); feat := cols M;
              mats := map rows Ms |}
      else Err RuntimeError
  end.

End Tensors.

Arguments Mat R : clear implicits.
Arguments Tensor3 R : clear implicits.

(** ** The intervention module *)

Section Intervention.
Context {R : Type} `{Scalar R} {G : Type}.

(** The attributes of a [LoreftIntervention] object that [forward] reads.
    [G] is the state of the random number generator that dropout draws
    from. *)
Record LoreftIntervention : Type := {
  embed_dim : nat;
  low_rank_dimension : nat;
  (** [rotate_layer.weight], of shape [(embed_dim, low_rank_dimension)] *)
  rotate_layer_weight : Mat R;
  (** [learned_source.weight], of shape [(low_rank_dimension, embed_dim)] *)
  learned_source_weight : Mat R;
  (** [learned_source.bias], of length [low_rank_dimension] *)
  learned_source_bias : list R;
  (** [act_fn], applied to every entry *)
  act_fn : R -> R;
  (** what [dropout] does to a tensor while the module is training *)
  dropout_train : G -> Tensor3 R -> Tensor3 R * G;
  (** [self.training] *)
  training : bool
}.

(** The shapes that the constructor of the module establishes. *)
Definition wf_module (self : LoreftIntervention) : Prop :=
  wf_mat (rotate_layer_weight self) /\
  length (rows (rotate_layer_weight self)) = embed_dim self /\
  cols (rotate_layer_weight self) = low_rank_dimension self /\
  wf_mat (learned_source_weight self) /\
  length (rows (learned_source_weight self)) = low_rank_dimension self /\
  cols (learned_source_weight self) = embed_dim self /\
  length (learned_source_bias self) = low_rank_dimension self.

(** Modelled from the spec: the learned rotation [rotate_layer] of the base
    class, which is not in the notebook; it maps a representation to the
    rotated base [base @ rotate_layer.weight]. *)
Definition rotate_layer (self : LoreftIntervention) (x : Tensor3 R)
  : result (Tensor3 R) :=
  matmul x (rotate_layer_weight self).

(** Modelled from the spec: the learned source transformation
    [learned_source] of the base class, which is not in the notebook; the
    affine map [W b + s], i.e. [x @ weight.T + bias]. *)
Definition learned_source (self : LoreftIntervention) (x : Tensor3 R)
  : result (Tensor3 R) :=
  y ← matmul x (transpose (learned_source_weight self));
  tensor_add y
    {| seq_len := 1; feat := length (learned_source_bias self);
       mats := [[learned_source_bias self]] |}.

(** Modelled from the spec: the dropout-style step of the base class, which
    is not in the notebook; stochastic during training only, the identity
    in evaluation mode. *)
Definition dropout (self : LoreftIntervention) (g : G) (x : Tensor3 R)
  : Tensor3 R * G :=
  if training self then dropout_train self g x else (x, g).

(** The [for example_i in range(len(subspaces))] loop of [forward] from
    iteration [example_i] on; it returns the entries appended to
    [batched_subspace] and to [batched_weights]. *)
Fixpoint collect (diff : Tensor3 R) (weight : Mat R)
    (subspaces : list (list Z)) (example_i : nat)
  : result (list (Mat R) * list (Mat R)) :=
  match subspaces with
  | [] => Ok ([], [])
  | idx :: rest =>
      LHS ← index_example diff example_i idx;
      RHS ← transpose <$> index_columns weight idx;
      '(batched_subspace, batched_weights) ← collect diff weight rest (S example_i);
      Ok (LHS :: batched_subspace, RHS :: batched_weights)
  end.

(** [SubloreftIntervention.forward(self, base, source, subspaces)].  The
    generator state is threaded through; the attributes of [self] and the
    tensor [base] are only read. *)
Definition forward (self : LoreftIntervention) (g : G)
    (base : Tensor3 R) (source : option (Tensor3 R))
    (subspaces : option (list (list Z)))
  : result (Tensor3 R * G) :=
  match subspaces with
  | None => Err AssertionError
  | Some subspaces =>
      rotated_base ← rotate_layer self base;
      transformed ← learned_source self base;
      diff ← tensor_sub (tensor_map (act_fn self) transformed) rotated_base;
      '(batched_subspace, batched_weights) ←
        collect diff (rotate_layer_weight self) subspaces 0;
      batched_subspace ← stack batched_subspace;
      batched_weights ← stack batched_weights;
      correction ← bmm batched_subspace batched_weights;
      output ← tensor_add base correction;
      Ok (dropout self g output)
  end.

(** The value of the local variable [diff] of [forward]. *)
Definition residual (self : LoreftIntervention) (base : Tensor3 R)
  : result (Tensor3 R) :=
  rotated_base ← rotate_layer self base;
  transformed ← learned_source self base;
  tensor_sub (tensor_map (act_fn self) transformed) rotated_base.

(** The value of the local variable [output] of [forward], the argument
    of the final [self.dropout]. *)
Definition gated_output (self : LoreftIntervention) (base : Tensor3 R)
    (subspaces : list (list Z)) : result (Tensor3 R) :=
  diff ← residual self base;
  '(batched_subspace, batched_weights) ←
    collect diff (rotate_layer_weight self) subspaces 0;
  batched_subspace ← stack batched_subspace;
  batched_weights ← stack batched_weights;
  correction ← bmm batched_subspace batched_weights;
  tensor_add base correction.

(** The index lists [subspaces] are valid and denote the coordinates [jss]. *)
Definition indices_ok self (subspaces : list (list Z)) (jss : list (list nat)) : Prop :=
  Forall2 (fun idx js => try_all (norm_index (low_rank_dimension self)) idx = Ok js)
          subspaces jss.

(** A coordinate of the rotation: one of [0, ..., r - 1]. *)
Definition valid_index (r : nat) (j : Z) : Prop := (0 <= j < Z.of_nat r)%Z.

(** Valid per-example index lists for the batch [base]: the batch is not
    empty, there is one list per example, every index is a coordinate of
    the rotation, and the lists have one common length. *)
Definition valid_subspaces (self : LoreftIntervention) (base : Tensor3 R)
    (subspaces : list (list Z)) : Prop :=
  0 < length (mats base) /\
  length subspaces = length (mats base) /\
  Forall (Forall (valid_index (low_rank_dimension self))) subspaces /\
  exists k, Forall (fun idx => length idx = k) subspaces.

(** Dropout returns a tensor of the shape of its argument. *)
Definition dropout_keeps_shape (self : LoreftIntervention) : Prop :=
  forall (g : G) (x : Tensor3 R), shape3 (dropout_train self g x).1 = shape3 x.

(** *** What [forward] computes for one hidden-state vector *)

(** The low-rank residual of the vector [x]. *)
Definition residual_row (self : LoreftIntervention) (x : list R) : list R :=
  zip_with ssub
    (map (act_fn self)
       (zip_with sadd (vec_mat x (transpose (learned_source_weight self)))
          (learned_source_bias self)))
    (vec_mat x (rotate_layer_weight self)).

(** The correction of the vector [x] for the selected coordinates [js]:
    entry [e] is the sum over [j] in [js] of
    [residual[j] * rotate_layer.weight[e, j]]. *)
Definition correction_row (self : LoreftIntervention) (js : list nat)
    (x : list R) : list R :=
  map (fun w => dot (gather js (residual_row self x)) (gather js w))
      (rows (rotate_layer_weight self)).

(** The output for one example: its positions [M] and its index list. *)
Definition example_output (self : LoreftIntervention)
    (M : list (list R)) (idx : list Z) : result (list (list R)) :=
  js ← try_all (norm_index (low_rank_dimension self)) idx;
  Ok (map (fun x => zip_with sadd x (correction_row self js x)) M).

(** *** The un-gated intervention of the base class *)

Definition mat_vec (M : Mat R) (v : list R) : list R :=
  map (fun row => dot row v) (rows M).

(** The learned rotation [R], of shape [(low_rank_dimension, embed_dim)]. *)
Definition rotation (self : LoreftIntervention) : Mat R :=
  transpose (rotate_layer_weight self).

(** Modelled from the spec: the un-gated correction of the base class
    [LoreftIntervention], which is not in the notebook:
    [b + R^T (act_fn (W b + s) - R b)] for a hidden-state vector [b]. *)
Definition loreft_vector (self : LoreftIntervention) (b : list R) : list R :=
  zip_with sadd b
    (mat_vec (transpose (rotation self))
       (zip_with ssub
          (map (act_fn self)
             (zip_with sadd (mat_vec (learned_source_weight self) b)
                (learned_source_bias self)))
          (mat_vec (rotation self) b))).

(** Modelled from the spec: [LoreftIntervention.forward] of the base class,
    the un-gated correction of every vector of the batch followed by the
    same dropout step. *)
Definition loreft_forward (self : LoreftIntervention) (g : G)
    (base : Tensor3 R) : result (Tensor3 R * G) :=
  if decide (feat base = embed_dim self) then
    Ok (dropout self g (rows_map (loreft_vector self) (feat base) base))
  else Err RuntimeError.

(** The full index range [0, 1, ..., low_rank_dimension - 1]. *)
Definition full_range (self : LoreftIntervention) : list Z :=
  map Z.of_nat (seq 0 (low_rank_dimension self)).

(** *** The index lists that [forward] accepts *)

(** A Python index that a dimension of size [r] accepts. *)
Definition in_range (r : nat) (j : Z) : Prop :=
  (- Z.of_nat r <= j < Z.of_nat r)%Z.

(** The index that [j] stands for: a negative index counts from the end. *)
Definition wrap_index (r : nat) (j : Z) : Z :=
  if decide (j < 0)%Z then (j + Z.of_nat r)%Z else j.

(** The coordinate that a Python index into a dimension of size [r] selects. *)
Definition coordinate (r : nat) (j : Z) : nat := Z.to_nat (wrap_index r j).

(** The coordinates that the index lists select, a list per example. *)
Definition selected (self : LoreftIntervention) (subspaces : list (list Z))
  : result (list (list nat)) :=
  try_all (try_all (norm_index (low_rank_dimension self))) subspaces.

(** The stacking, the batched product and the final sum of [forward], as
    a function of the selected coordinates. *)
Definition combine (self : LoreftIntervention) (base : Tensor3 R)
    (jss : list (list nat)) : result (Tensor3 R) :=
  match jss with
  | [] => Err RuntimeError
  | js0 :: _ =>
      if decide (Forall (fun js => length js = length js0) jss) then
        b ← broadcast_dim (length (mats base)) (length jss);
        Ok {| seq_len := seq_len base; feat := feat base;
              mats := zip_with (zip_with (zip_with sadd)) (mats base)
                        (expand b
                           (zip_with (fun M js => map (correction_row self js) M)
                              (mats base) jss)) |}
      else Err RuntimeError
  end.

End Intervention.

Arguments LoreftIntervention R G : clear implicits.

(** ** [forward] on a store of objects

    The same code once more, with the objects it handles in a store: the
    parameter tensors of the module, the tensor [base], the tensors that
    the call creates and the two Python lists that it appends to.  A
    reference is the position of an object in the store. *)

Section Store.
Context {R : Type} `{Scalar R} {G : Type}.

Inductive object : Type :=
| OVector (v : list R)
| OMatrix (M : Mat R)
| OTensor (X : Tensor3 R)
| OList (l : list nat).

Record store : Type := mkStore {
  objects : list object;
  (** the state of the random number generator *)
  generator : G
}.

(** A computation that reads and updates the store and may raise; the
    store it leaves behind is there in both cases. *)
Definition prog (A : Type) : Type := store -> result A * store.

#[global] Instance prog_ret : MRet prog := fun A a st => (Ok a, st).
#[global] Instance prog_bind : MBind prog := fun A B f m st =>
  match m st with
  | (Ok a, st') => f a st'
  | (Err e, st') => (Err e, st')
  end.

Definition raise {A} (e : exn) : prog A := fun st => (Err e, st).

Definition lift {A} (r : result A) : prog A := fun st => (r, st).

(** A new object; its reference is the next free position. *)
Definition alloc (o : object) : prog nat := fun st =>
  (Ok (length (objects st)),
   {| objects := objects st ++ [o]; generator := generator st |}).

Definition get_vector (l : nat) : prog (list R) := fun st =>
  match objects st !! l with
  | Some (OVector v) => (Ok v, st)
  | _ => (Err TypeError, st)
  end.

Definition get_matrix (l : nat) : prog (Mat R) := fun st =>
  match objects st !! l with
  | Some (OMatrix M) => (Ok M, st)
  | _ => (Err TypeError, st)
  end.

Definition get_tensor (l : nat) : prog (Tensor3 R) := fun st =>
  match objects st !! l with
  | Some (OTensor X) => (Ok X, st)
  | _ => (Err TypeError, st)
  end.

Definition get_list (l : nat) : prog (list nat) := fun st =>
  match objects st !! l with
  | Some (OList xs) => (Ok xs, st)
  | _ => (Err TypeError, st)
  end.

Fixpoint get_matrices (ls : list nat) : prog (list (Mat R)) :=
  match ls with
  | [] => mret []
  | l :: ls' => M ← get_matrix l; Ms ← get_matrices ls'; mret (M :: Ms)
  end.

(** [l += [x]] on the list object [l]: the one operation of [forward] that
    modifies an object in place. *)
Definition append (l x : nat) : prog unit := fun st =>
  match objects st !! l with
  | Some (OList xs) =>
      (Ok (), {| objects := <[l := OList (xs ++ [x])]> (objects st);
                 generator := generator st |})
  | _ => (Err TypeError, st)
  end.

(** The result of a tensor operation is a new tensor. *)
Definition new_matrix (r : result (Mat R)) : prog nat :=
  M ← lift r; alloc (OMatrix M).

Definition new_tensor (r : result (Tensor3 R)) : prog nat :=
  X ← lift r; alloc (OTensor X).

(** Where the parameter tensors of the module are. *)
Record parameters : Type := {
  rotate_layer_weight_at : nat;
  learned_source_weight_at : nat;
  learned_source_bias_at : nat
}.

(** The parameter tensors in the store are those of [self]. *)
Definition stored (p : parameters) (self : LoreftIntervention R G)
    (st : store) : Prop :=
  objects st !! rotate_layer_weight_at p
    = Some (OMatrix (rotate_layer_weight self)) /\
  objects st !! learned_source_weight_at p
    = Some (OMatrix (learned_source_weight self)) /\
  objects st !! learned_source_bias_at p
    = Some (OVector (learned_source_bias self)).

(** [self.rotate_layer(x)] *)
Definition rotate_layer_call (p : parameters) (x : nat) : prog nat :=
  W ← get_matrix (rotate_layer_weight_at p);
  X ← get_tensor x;
  new_tensor (matmul X W).

(** [self.learned_source(x)] *)
Definition learned_source_call (p : parameters) (x : nat) : prog nat :=
  W ← get_matrix (learned_source_weight_at p);
  s ← get_vector (learned_source_bias_at p);
  X ← get_tensor x;
  new_tensor
    (y ← matmul X (transpose W);
     tensor_add y {| seq_len := 1; feat := length s; mats := [[s]] |}).

(** [self.act_fn(x)] *)
Definition act_fn_call (self : LoreftIntervention R G) (x : nat) : prog nat :=
  X ← get_tensor x;
  new_tensor (Ok (tensor_map (act_fn self) X)).

(** [x - y] and [x + y] *)
Definition sub_call (x y : nat) : prog nat :=
  X ← get_tensor x; Y ← get_tensor y; new_tensor (tensor_sub X Y).

Definition add_call (x y : nat) : prog nat :=
  X ← get_tensor x; Y ← get_tensor y; new_tensor (tensor_add X Y).

(** [x[i, :, idx]] and [w[..., idx]]: indexing with a list copies. *)
Definition index_example_call (x : nat) (i : nat) (idx : list Z) : prog nat :=
  X ← get_tensor x; new_matrix (index_example X i idx).

Definition index_columns_call (w : nat) (idx : list Z) : prog nat :=
  W ← get_matrix w; new_matrix (index_columns W idx).

(** [m.T] *)
Definition transpose_call (m : nat) : prog nat :=
  M ← get_matrix m; new_matrix (Ok (transpose M)).

(** [torch.stack(l, dim=0)] on a list object *)
Definition stack_call (l : nat) : prog nat :=
  ls ← get_list l; Ms ← get_matrices ls; new_tensor (stack Ms).

(** [torch.bmm(x, y)] *)
Definition bmm_call (x y : nat) : prog nat :=
  X ← get_tensor x; Y ← get_tensor y; new_tensor (bmm X Y).

(** What dropout does to the values of a tensor while the module is
    training; it draws from the generator. *)
Definition draw (self : LoreftIntervention R G) (X : Tensor3 R)
  : prog (Tensor3 R) := fun st =>
  let '(Y, g') := dropout_train self (generator st) X in
  (Ok Y, {| objects := objects st; generator := g' |}).

(** Modelled from the spec: the dropout-style step of the base class.  In
    evaluation mode it returns its argument; while training the result is
    a new tensor. *)
Definition dropout_call (self : LoreftIntervention R G) (x : nat) : prog nat :=
  if training self then
    X ← get_tensor x;
    Y ← draw self X;
    alloc (OTensor Y)
  else mret x.

(** The loop of [forward] from iteration [example_i] on. *)
Fixpoint loop (p : parameters) (diff batched_subspace batched_weights : nat)
    (subspaces : list (list Z)) (example_i : nat) : prog unit :=
  match subspaces with
  | [] => mret ()
  | idx :: rest =>
      LHS ← index_example_call diff example_i idx;
      columns ← index_columns_call (rotate_layer_weight_at p) idx;
      RHS ← transpose_call columns;
      _ ← append batched_subspace LHS;
      _ ← append batched_weights RHS;
      loop p diff batched_subspace batched_weights rest (S example_i)
  end.

(** [SubloreftIntervention.forward(self, base, source, subspaces)], the
    arguments [base] and [source] being references.  With one precision
    [output.to(base.dtype)] is [output] itself. *)
Definition forward_store (self : LoreftIntervention R G) (p : parameters)
    (base : nat) (source : option nat) (subspaces : option (list (list Z)))
  : prog nat :=
  match subspaces with
  | None => raise AssertionError
  | Some subspaces =>
      _ ← alloc (OList []);
      rotated_base ← rotate_layer_call p base;
      transformed ← learned_source_call p base;
      activated ← act_fn_call self transformed;
      diff ← sub_call activated rotated_base;
      batched_subspace ← alloc (OList []);
      batched_weights ← alloc (OList []);
      _ ← loop p diff batched_subspace batched_weights subspaces 0;
      batched_subspace ← stack_call batched_subspace;
      batched_weights ← stack_call batched_weights;
      correction ← bmm_call batched_subspace batched_weights;
      output ← add_call base correction;
      dropout_call self output
  end.

(** The tensor that a call has returned, or the exception it has raised. *)
Definition load (st : store) (res : result nat) : result (Tensor3 R) :=
  l ← res;
  match objects st !! l with
  | Some (OTensor X) => Ok X
  | _ => Err TypeError
  end.

(** The objects outside [L] are in [st'] what they are in [st]. *)
Definition keeps (L : list nat) (st st' : store) : Prop :=
  forall l o, l ∉ L -> objects st !! l = Some o -> objects st' !! l = Some o.

(** Started in [st], the computation [m] has the outcome [r]: it raises
    what [r] raises, or returns a value that stands for the value of [r],
    as [Q] says; it modifies no object outside [L], and leaves the
    generator alone when it raises. *)
Definition simulates {A B} (L : list nat) (m : prog A) (r : result B)
    (st : store) (Q : A -> B -> store -> Prop) : Prop :=
  exists st', keeps L st st' /\
    match r with
    | Ok b => exists a, m st = (Ok a, st') /\ Q a b st'
    | Err e => m st = (Err e, st') /\ generator st' = generator st
    end.

(** A tensor operation: the result is a new object in the next position. *)
Definition added (st : store) (o : object) (l : nat) (st' : store)
  : Prop :=
  l = length (objects st) /\
  st' = {| objects := objects st ++ [o]; generator := generator st |}.

End Store.

Arguments object R : clear implicits.
Arguments store R G : clear implicits.
Arguments prog R G A : clear implicits.

(** *** Concrete modules and batches *)

(** A state-passing map over a list, left to right. *)
Fixpoint map_state {A B S : Type} (f : S -> A -> B * S) (s : S) (l : list A)
  : list B * S :=
  match l with
  | [] => ([], s)
  | x :: l' =>
      let '(y, s1) := f s x in
      let '(ys, s2) := map_state f s1 l' in
      (y :: ys, s2)
  end.

(** An instance of dropout with probability 1/2 over the integers: the
    generator is a counter, the entries are visited in row-major order, an
    entry is kept (and scaled by 2) when the counter is even and zeroed
    otherwise, and every entry advances the counter. *)
Definition half_dropout (g : nat) (x : Tensor3 Z) : Tensor3 Z * nat :=
  let '(ms, g') :=
    map_state
      (map_state
         (map_state (fun (c : nat) (a : Z) =>
                       (if Nat.even c then (2 * a)%Z else 0%Z, S c))))
      g (mats x) in
  ({| seq_len := seq_len x; feat := feat x; mats := ms |}, g').

(** A module of rank 2 on representations of size 3, in evaluation mode and
    with dropout probability 0 as in the notebook. *)
Definition ex_self : LoreftIntervention Z nat := {|
  embed_dim := 3;
  low_rank_dimension := 2;
  rotate_layer_weight := mkMat 2 [[1; 0]; [0; 1]; [0; 0]]%Z;
  learned_source_weight := mkMat 3 [[2; 0; 1]; [0; 3; 0]]%Z;
  learned_source_bias := [5; 7]%Z;
  act_fn := fun x => x;
  dropout_train := fun g x => (x, g);
  training := false
|}.

(** The same rotation with a learned source that reproduces it. *)
Definition ex_fit : LoreftIntervention Z nat := {|
  embed_dim := 3;
  low_rank_dimension := 2;
  rotate_layer_weight := mkMat 2 [[1; 0]; [0; 1]; [0; 0]]%Z;
  learned_source_weight := mkMat 3 [[1; 0; 0]; [0; 1; 0]]%Z;
  learned_source_bias := [0; 0]%Z;
  act_fn := fun x => x;
  dropout_train := fun g x => (x, g);
  training := false
|}.

(** [ex_self] while training with dropout probability 1/2. *)
Definition ex_train : LoreftIntervention Z nat := {|
  embed_dim := 3;
  low_rank_dimension := 2;
  rotate_layer_weight := mkMat 2 [[1; 0]; [0; 1]; [0; 0]]%Z;
  learned_source_weight := mkMat 3 [[2; 0; 1]; [0; 3; 0]]%Z;
  learned_source_bias := [5; 7]%Z;
  act_fn := fun x => x;
  dropout_train := half_dropout;
  training := true
|}.

(** [ex_self] while training with dropout probability 0, as the notebook
    trains it. *)
Definition ex_train0 : LoreftIntervention Z nat := {|
  embed_dim := 3;
  low_rank_dimension := 2;
  rotate_layer_weight := mkMat 2 [[1; 0]; [0; 1]; [0; 0]]%Z;
  learned_source_weight := mkMat 3 [[2; 0; 1]; [0; 3; 0]]%Z;
  learned_source_bias := [5; 7]%Z;
  act_fn := fun x => x;
  dropout_train := fun g x => (x, g);
  training := true
|}.

(** Two batches of two examples with one position each; they agree on
    example 0. *)
Definition ex_base : Tensor3 Z := mkT3 1 3 [[[1; 2; 3]]; [[4; 5; 6]]]%Z.
Definition ex_base' : Tensor3 Z := mkT3 1 3 [[[1; 2; 3]]; [[7; 8; 9]]]%Z.

(** A batch of one example. *)
Definition ex_single : Tensor3 Z := mkT3 1 3 [[[1; 2; 3]]]%Z.

(** A batch whose vectors have the wrong size for [ex_self]. *)
Definition ex_narrow : Tensor3 Z := mkT3 1 2 [[[1; 2]]]%Z.

(** A module of rank 8, as in the notebook, on representations of size 1,
    and a batch of two examples for it. *)
Definition ex_rank8 : LoreftIntervention Z nat := {|
  embed_dim := 1;
  low_rank_dimension := 8;
  rotate_layer_weight := mkMat 8 [[1; 0; 0; 0; 1; 0; 0; 0]]%Z;
  learned_source_weight := mkMat 1 [[1]; [2]; [3]; [4]; [5]; [6]; [7]; [8]]%Z;
  learned_source_bias := [0; 0; 0; 0; 0; 0; 0; 0]%Z;
  act_fn := fun x => x;
  dropout_train := fun g x => (x, g);
  training := false
|}.

Definition ex_base8 : Tensor3 Z := mkT3 1 1 [[[3]]; [[5]]]%Z.

(** A store that holds the parameter tensors of [ex_train0] and the batch
    [ex_base], and a call of [forward] in it. *)
Definition ex_parameters : parameters := {|
  rotate_layer_weight_at := 0;
  learned_source_weight_at := 1;
  learned_source_bias_at := 2
|}.

Definition ex_store : store Z nat := {|
  objects := [OMatrix (rotate_layer_weight ex_train0);
              OMatrix (learned_source_weight ex_train0);
              OVector (learned_source_bias ex_train0);
              OTensor ex_base];
  generator := 0
|}.

Definition ex_run : result nat * store Z nat :=
  forward_store ex_train0 ex_parameters 3 None (Some [[0]; [1]]%Z) ex_store.

(** Entry [(i, t, e)] of a 3-d tensor and entry [(e, j)] of a matrix. *)
Definition entry3 {R} `{Scalar R} (X : Tensor3 R) (i t e : nat) : R :=
  nth e (nth t (nth i (mats X) []) []) s0.

Definition entry2 {R} `{Scalar R} (W : Mat R) (e j : nat) : R :=
  nth j (nth e (rows W) []) s0.

(** ** Dataset preprocessing *)

(** The values held by the fields of a dataset row. *)
Inductive value : Type :=
| VStr (s : string)
| VInt (z : Z)
| VList (l : list value).

Definition int_list (l : list Z) : value := VList (map VInt l).

(** [d[k]] on a dict. *)
Definition getitem (d : gmap string value) (k : string) : result value :=
  match d !! k with
  | Some v => Ok v
  | None => Err KeyError
  end.

(** [len(v)]; a character of the model stands for one character of the
    Python string. *)
Definition py_len (v : value) : result nat :=
  match v with
  | VStr s => Ok (String.length s)
  | VList l => Ok (length l)
  | VInt _ => Err TypeError
  end.

(** [v[i]] on a list or a string, negative positions counting from the end. *)
Definition py_index (v : value) (i : Z) : result value :=
  let pos (n : nat) : option nat :=
    if decide (0 <= i < Z.of_nat n)%Z then Some (Z.to_nat i)
    else if decide (- Z.of_nat n <= i < 0)%Z then Some (Z.to_nat (i + Z.of_nat n))
    else None in
  match v with
  | VList l =>
      match pos (length l) ≫= (l !!.) with
      | Some x => Ok x
      | None => Err IndexError
      end
  | VStr s =>
      match pos (String.length s) ≫= (fun n => String.get n s) with
      | Some c => Ok (VStr (String c EmptyString))
      | None => Err IndexError
      end
  | VInt _ => Err TypeError
  end.

(** [v += w] as an expression: the new value of [v]. *)
Definition py_iadd (v : value) (w : string) : result value :=
  match v with
  | VStr s => Ok (VStr (s +:+ w))
  | VList l =>
      Ok (VList (l ++ map (fun c => VStr (String c EmptyString))
                        (String.list_ascii_of_string w)))
  | VInt _ => Err TypeError
  end.

(** Subspace partitions: a LoReFT of rank 8, the first 4 ranks for German
    sentence completion and the next 4 for instruction following. *)
Definition HELLASWAG_SUBSPACE : list Z := [0; 1; 2; 3]%Z.
Definition INSTRUCT_SUBSPACE : list Z := [4; 5; 6; 7]%Z.

Local Open Scope string_scope.

Section Preprocess.
(** Python's builtin [int] and the tokenizer's end-of-sequence token. *)
Variable py_int : value -> result Z.
Variable eos_token : string.

Definition preprocess_hellaswag_de_for_reft (examples : gmap string value)
  : result (gmap string value) :=
  label_field ← getitem examples "label";
  label ← py_int label_field;
  endings ← getitem examples "endings_de";
  n ← py_len endings;
  output ← (if decide (n < 4) then
              endings ← getitem examples "endings_de";
              py_index endings (-1)
            else
              endings ← getitem examples "endings_de";
              py_index endings label);
  ctx ← getitem examples "ctx";
  let examples := <["instruction" := ctx]> examples in
  let examples := <["output" := output]> examples in
  let examples := <["subspaces" := int_list HELLASWAG_SUBSPACE]> examples in
  Ok examples.

Definition preprocess_ultrafeedback_for_reft (examples : gmap string value)
  : result (gmap string value) :=
  let examples := <["subspaces" := int_list INSTRUCT_SUBSPACE]> examples in
  output ← getitem examples "output";
  output ← py_iadd output eos_token;
  Ok (<["output" := output]> examples).

End Preprocess.

(** *** Concrete rows *)

(** Python's [int] on the labels of the German HellaSwag rows, the strings
    ["0"] to ["3"], and on integers. *)
Definition ex_int (v : value) : result Z :=
  match v with
  | VInt z => Ok z
  | VStr "0" => Ok 0%Z
  | VStr "1" => Ok 1%Z
  | VStr "2" => Ok 2%Z
  | VStr "3" => Ok 3%Z
  | VStr _ => Err ValueError
  | VList _ => Err TypeError
  end.

(** A row with four endings and a row with two. *)
Definition ex_hellaswag : gmap string value :=
  <["label" := VStr "2"]>
    (<["endings_de" := VList [VStr "a"; VStr "b"; VStr "c"; VStr "d"]]>
       (<["ctx" := VStr "Ein Mann"]> ∅)).

Definition ex_hellaswag_short : gmap string value :=
  <["label" := VStr "3"]>
    (<["endings_de" := VList [VStr "a"; VStr "b"]]>
       (<["ctx" := VStr "Ein Mann"]> ∅)).

(** An instruction-following row. *)
Definition ex_ultrafeedback : gmap string value :=
  <["output" := VStr "Eat well."]>
    (<["instruction" := VStr "How to keep a healthy lifestyle?"]>
       (<["input" := VStr ""]> ∅)).

(** * Properties *)

(** ** Fallible computations *)

Lemma bind_Ok {A B} (m : result A) (k : A -> result B) (v : B) :
  m ≫= k = Ok v <-> exists a, m = Ok a /\ k a = Ok v.
Proof.
  destruct m as [a|e]; simpl; split.
  - intros Hk. exists a. auto.
  - intros (a' & Ha & Hk). congruence.
  - discriminate.
  - intros (a' & Ha & _). discriminate.
Qed.

Lemma try_all_Ok {A B} (f : A -> result B) (l : list A) (ys : list B) :
  try_all f l = Ok ys <-> Forall2 (fun x y => f x = Ok y) l ys.
Proof.
  revert ys. induction l as [|x l IH]; intros ys; simpl.
  - split.
    + intros [= <-]. constructor.
    + intros Hl. inversion Hl. reflexivity.
  - split.
    + intros Hb. apply bind_Ok in Hb as (y & Hy & Hb).
      apply bind_Ok in Hb as (ys' & Hys & [= <-]).
      constructor; [assumption | by apply IH].
    + intros Hl. inversion Hl as [|? y ? ys' Hy Hys]; subst.
      rewrite Hy. simpl. apply IH in Hys. rewrite Hys. reflexivity.
Qed.

Lemma expand_id {A} (n : nat) (l : list A) : length l = n -> expand n l = l.
Proof. intros <-. destruct l as [|x [|y l]]; reflexivity. Qed.

(** ** Lists *)

Lemma expand_lookup {A} (n i : nat) (l : list A) (x : A) :
  l !! i = Some x -> length l = n \/ (length l = 1 /\ 0 < n) ->
  expand n l !! i = Some x.
Proof.
  intros Hx [Hn|[H1 Hn]].
  - by rewrite expand_id.
  - destruct l as [|y [|z l]]; simplify_eq/=.
    destruct i; simplify_eq/=. apply lookup_replicate_2. lia.
Qed.

Lemma expand_length {A} (n : nat) (l : list A) :
  length l = n \/ length l = 1 -> length (expand n l) = n.
Proof.
  intros [Hn|H1].
  - by rewrite expand_id.
  - destruct l as [|x [|y l]]; simplify_eq/=. by rewrite length_replicate.
Qed.

Lemma Forall_expand {A} (P : A -> Prop) (n : nat) (l : list A) :
  Forall P l -> Forall P (expand n l).
Proof.
  intros Hl. destruct l as [|x [|y l]]; simpl; try done.
  apply Forall_replicate. by apply Forall_inv in Hl.
Qed.

Lemma fmap_eq_Forall {A B} (f g : A -> B) (l : list A) :
  map f l = map g l -> Forall (fun x => f x = g x) l.
Proof.
  induction l as [|x l IH]; csimpl; [constructor|].
  intros [= Hx Hl]. constructor; auto.
Qed.

Lemma if_decide_iff {A} (P Q : Prop) `{Decision P, Decision Q} (a b : A) :
  (P <-> Q) -> (if decide P then a else b) = (if decide Q then a else b).
Proof. intros HPQ. repeat case_decide; tauto. Qed.

Section ListFacts.
Context {A B : Type}.

Lemma map_nth_seq (d : A) (l : list A) :
  map (fun c => nth c l d) (seq 0 (length l)) = l.
Proof.
  apply list_eq. intros i. rewrite list_lookup_fmap.
  destruct (decide (i < length l)) as [Hi|Hi].
  - rewrite lookup_seq_lt by done. simpl.
    destruct (nth_lookup_or_length l i d) as [->|]; [done|lia].
  - rewrite lookup_seq_ge by lia. simpl. symmetry. apply lookup_ge_None. lia.
Qed.

Lemma map_seq_nth (f : A -> B) (d : A) (l : list A) :
  map (fun e => f (nth e l d)) (seq 0 (length l)) = map f l.
Proof.
  transitivity (map f (map (fun c => nth c l d) (seq 0 (length l)))).
  - by rewrite <- list_fmap_compose.
  - by rewrite map_nth_seq.
Qed.

End ListFacts.

(** ** Tensors *)

Section TensorFacts.
Context {R : Type} `{Scalar R}.
Add Ring scalar_ring_inst : scalar_ring.

Lemma broadcast_dim_same (n : nat) : broadcast_dim n n = Ok n.
Proof. unfold broadcast_dim. by rewrite decide_True. Qed.

Lemma broadcast_dim_1_r (n : nat) : broadcast_dim n 1 = Ok n.
Proof. unfold broadcast_dim. repeat case_decide; congruence. Qed.

Lemma map_id_Forall {A} (f : A -> A) (l : list A) :
  Forall (fun x => f x = x) l -> map f l = l.
Proof. induction 1 as [|x l Hx _ IH]; csimpl; [done|]. by rewrite Hx, IH. Qed.

Lemma zip_with_map_same {A B C D} (g : B -> C -> D) (f1 : A -> B) (f2 : A -> C)
    (l : list A) :
  zip_with g (map f1 l) (map f2 l) = map (fun x => g (f1 x) (f2 x)) l.
Proof. induction l as [|x l IH]; csimpl; [done|]. by rewrite IH. Qed.

Lemma expand_rows_id (s f : nat) (M : list (list R)) :
  length M = s -> wf_rows f M -> expand s (map (expand f) M) = M.
Proof.
  intros Hs Hf. rewrite (map_id_Forall (expand f)).
  - by apply expand_id.
  - eapply Forall_impl; [exact Hf|]. intros row. apply expand_id.
Qed.

Lemma expand3_id (X : Tensor3 R) :
  wf_tensor X -> expand3 (length (mats X)) (seq_len X) (feat X) X = mats X.
Proof.
  intros Hwf. unfold expand3.
  rewrite map_id_Forall.
  - by apply expand_id.
  - eapply Forall_impl; [exact Hwf|]. intros M [Hs Hf]. by apply expand_rows_id.
Qed.

Lemma broadcast_op_same (op : R -> R -> R) (X Y : Tensor3 R) :
  wf_tensor X -> wf_tensor Y -> shape3 X = shape3 Y ->
  broadcast_op op X Y =
  Ok {| seq_len := seq_len X; feat := feat X;
        mats := zip_with (zip_with (zip_with op)) (mats X) (mats Y) |}.
Proof.
  intros HX HY [= Hb Hs Hf]. unfold broadcast_op.
  rewrite <- Hb, <- Hs, <- Hf, !broadcast_dim_same. simpl.
  rewrite (expand3_id X HX).
  rewrite Hb, Hs, Hf, (expand3_id Y HY). reflexivity.
Qed.

Lemma wf_rows_map (f : list R -> list R) (n : nat) (X : Tensor3 R) :
  (forall x, length x = feat X -> length (f x) = n) -> wf_tensor X ->
  wf_tensor (rows_map f n X).
Proof.
  intros Hf HX. unfold wf_tensor. simpl. apply Forall_fmap.
  eapply Forall_impl; [exact HX|]. intros M [Hs Hrows]. simpl.
  split; [by rewrite length_fmap|].
  unfold wf_rows. apply Forall_fmap.
  eapply Forall_impl; [exact Hrows|]. intros x Hx. by apply Hf.
Qed.

Lemma rows_map_compose (f g : list R -> list R) (n m : nat) (X : Tensor3 R) :
  rows_map g m (rows_map f n X) = rows_map (fun x => g (f x)) m X.
Proof.
  unfold rows_map. simpl. f_equal.
  rewrite <- list_fmap_compose. apply list_fmap_ext. intros i M _.
  unfold compose. by rewrite <- list_fmap_compose.
Qed.

(** An elementwise operator on two tensors computed vector by vector from
    the same tensor. *)
Lemma broadcast_op_rows_map (op : R -> R -> R) (f g : list R -> list R)
    (n : nat) (X : Tensor3 R) :
  wf_tensor X ->
  (forall x, length x = feat X -> length (f x) = n) ->
  (forall x, length x = feat X -> length (g x) = n) ->
  broadcast_op op (rows_map f n X) (rows_map g n X) =
  Ok (rows_map (fun x => zip_with op (f x) (g x)) n X).
Proof.
  intros HX Hf Hg.
  rewrite broadcast_op_same; [| by apply wf_rows_map.. |].
  - unfold rows_map. simpl. do 2 f_equal.
    rewrite zip_with_map_same. apply list_fmap_ext. intros i M _.
    by rewrite zip_with_map_same.
  - unfold shape3, rows_map. simpl. by rewrite !length_fmap.
Qed.

Lemma add_bias (X : Tensor3 R) (b : list R) :
  wf_tensor X -> feat X = length b ->
  tensor_add X {| seq_len := 1; feat := length b; mats := [[b]] |} =
  Ok (rows_map (fun v => zip_with sadd v b) (feat X) X).
Proof.
  intros HX Hf. unfold tensor_add, broadcast_op. simpl.
  rewrite <- Hf, !broadcast_dim_1_r, broadcast_dim_same. simpl.
  rewrite (expand3_id X HX). unfold expand3. simpl.
  rewrite (expand_id _ b) by done.
  rewrite zip_with_replicate_r_eq by done.
  unfold rows_map. do 2 f_equal. apply Forall_fmap_ext.
  eapply Forall_impl; [exact HX|]. intros M [Hs _]. simpl.
  by rewrite zip_with_replicate_r_eq.
Qed.

Lemma length_vec_mat (x : list R) (W : Mat R) : length (vec_mat x W) = cols W.
Proof. unfold vec_mat. by rewrite length_fmap, length_seq. Qed.

Lemma collect_Ok (diff : Tensor3 R) (W : Mat R) (subspaces : list (list Z))
    (i0 : nat) (Ls Rs : list (Mat R)) :
  feat diff = cols W ->
  collect diff W subspaces i0 = Ok (Ls, Rs) <->
  exists jss,
    Forall2 (fun idx js => try_all (norm_index (cols W)) idx = Ok js)
            subspaces jss /\
    length subspaces <= length (mats diff) - i0 /\
    Ls = zip_with (fun M js => select js M) (drop i0 (mats diff)) jss /\
    Rs = map (fun js => transpose (select js (rows W))) jss.
Proof.
  intros Hfeat. revert i0 Ls Rs.
  induction subspaces as [|idx rest IH]; intros i0 Ls Rs; simpl.
  - split.
    + intros [= <- <-]. exists []. split; [constructor|].
      split; [lia|]. split; [by destruct (drop i0 (mats diff))|done].
    + intros (jss & Hjss & _ & -> & ->). inversion Hjss; subst.
      by destruct (drop i0 (mats diff)).
  - unfold index_example, index_columns. rewrite Hfeat. split.
    + intros Hc.
      destruct (mats diff !! i0) as [M|] eqn:HM; [|discriminate].
      apply bind_Ok in Hc as (L & HL & Hc).
      apply bind_Ok in HL as (js & Hjs & [= <-]).
      apply bind_Ok in Hc as (Rm & HR & Hc).
      rewrite Hjs in HR. simpl in HR. injection HR as <-.
      apply bind_Ok in Hc as ([Ls' Rs'] & Hrest & [= <- <-]).
      apply IH in Hrest as (jss & Hjss & Hlen & -> & ->).
      exists (js :: jss). split; [by constructor|].
      pose proof (lookup_lt_Some _ _ _ HM).
      split; [lia|]. rewrite (drop_S _ _ _ HM). done.
    + intros (jss & Hjss & Hlen & -> & ->).
      inversion Hjss as [|? js ? jss' Hjs Hrest]; subst.
      destruct (lookup_lt_is_Some_2 (mats diff) i0) as [M HM]; [lia|].
      rewrite HM, Hjs. simpl.
      rewrite (drop_S _ _ _ HM). simpl.
      assert (Hr : collect diff W rest (S i0) =
                   Ok (zip_with (fun M js => select js M) (drop (S i0) (mats diff)) jss',
                       map (fun js => transpose (select js (rows W))) jss')).
      { apply IH. exists jss'. split; [done|]. split; [lia|done]. }
      rewrite Hr. done.
Qed.

Lemma length_gather (js : list nat) (row : list R) :
  length (gather js row) = length js.
Proof. unfold gather. by rewrite length_fmap. Qed.

Lemma wf_rows_select (js : list nat) (M : list (list R)) :
  wf_rows (length js) (rows (select js M)).
Proof.
  unfold wf_rows. simpl. apply Forall_fmap, Forall_forall.
  intros row _. apply length_gather.
Qed.

Lemma col_transpose (k e : nat) (N : list (list R)) :
  wf_rows k N -> e < length N ->
  col e (rows (transpose (mkMat k N))) = nth e N [].
Proof.
  intros HN He. unfold col, transpose. simpl.
  rewrite <- list_fmap_compose.
  destruct (lookup_lt_is_Some_2 N e He) as [w Hw].
  rewrite (nth_lookup_Some _ _ _ _ Hw).
  assert (Hk : length w = k) by apply (Forall_lookup_1 _ N e w HN Hw).
  etransitivity; [|apply (map_nth_seq s0 w)]. rewrite Hk.
  apply list_fmap_ext. intros i c _. simpl. unfold col.
  rewrite nth_lookup, list_lookup_fmap, Hw. done.
Qed.

(** [v @ N.T] is the list of the dot products of [v] with the rows of [N]. *)
Lemma vec_mat_transpose (v : list R) (k : nat) (N : list (list R)) :
  wf_rows k N ->
  vec_mat v (mkMat (length N) (rows (transpose (mkMat k N)))) = map (dot v) N.
Proof.
  intros HN. unfold vec_mat. cbn [cols rows].
  etransitivity; [|apply (map_seq_nth (dot v) [] N)].
  apply list_fmap_ext. intros i e [Hei He]%lookup_seq. simpl in Hei. subst e.
  simpl. f_equal. by apply (col_transpose k i N).
Qed.

Lemma broadcast_dim_le (a b n : nat) :
  1 <= b <= a -> broadcast_dim a b = Ok n -> n = a.
Proof.
  intros Hb. unfold broadcast_dim. repeat case_decide; intros [= <-]; lia.
Qed.

Lemma shapes_select (s k : nat) (Ms : list (list (list R))) (jss : list (list nat)) :
  Forall (fun M => length M = s) Ms -> length jss <= length Ms ->
  Forall (fun M' => shape2 M' = (s, k))
         (zip_with (fun M js => select js M) Ms jss) <->
  Forall (fun js => length js = k) jss.
Proof.
  intros HMs. revert jss.
  induction HMs as [|M Ms HM _ IH]; intros [|js jss] Hlen; simpl in *;
    try lia; try (by split; constructor).
  rewrite !Forall_cons, IH by lia.
  unfold shape2. simpl. rewrite length_fmap, HM.
  split; intros [Hs ?]; split; congruence.
Qed.

Lemma shapes_transpose_select (k : nat) (N : list (list R)) (jss : list (list nat)) :
  Forall (fun M' : Mat R => shape2 M' = (k, length N))
         (map (fun js => transpose (select js N)) jss) <->
  Forall (fun js => length js = k) jss.
Proof.
  rewrite Forall_fmap. apply Forall_proper; [|done].
  intros js. unfold compose, shape2. simpl. rewrite !length_fmap, length_seq.
  split; [congruence|by intros ->].
Qed.

Lemma stack_lhs (s : nat) (M0 : list (list R)) (Ms : list (list (list R)))
    (js0 : list nat) (jss : list (list nat)) :
  length M0 = s -> Forall (fun M => length M = s) Ms -> length jss <= length Ms ->
  stack (zip_with (fun M js => select js M) (M0 :: Ms) (js0 :: jss)) =
  if decide (Forall (fun js => length js = length js0) jss) then
    Ok {| seq_len := s; feat := length js0;
          mats := map rows (zip_with (fun M js => select js M)
                             (M0 :: Ms) (js0 :: jss)) |}
  else Err RuntimeError.
Proof.
  intros HM0 HMs Hlen. csimpl.
  rewrite (if_decide_iff _ (Forall (fun js => length js = length js0) jss)).
  - rewrite length_fmap, HM0. reflexivity.
  - unfold shape2 at 2. simpl. rewrite length_fmap, HM0.
    by apply shapes_select.
Qed.

Lemma stack_rhs (N : list (list R)) (js0 : list nat) (jss : list (list nat)) :
  stack (map (fun js => transpose (select js N)) (js0 :: jss)) =
  if decide (Forall (fun js => length js = length js0) jss) then
    Ok {| seq_len := length js0; feat := length N;
          mats := map rows (map (fun js => transpose (select js N))
                             (js0 :: jss)) |}
  else Err RuntimeError.
Proof.
  csimpl.
  rewrite (if_decide_iff _ (Forall (fun js => length js = length js0) jss)).
  - rewrite !length_fmap, length_seq. reflexivity.
  - unfold shape2 at 2. simpl. rewrite !length_fmap, length_seq.
    apply shapes_transpose_select.
Qed.

Lemma all_zero_sub_diag (u : list R) : all_zero (zip_with ssub u u).
Proof.
  rewrite zip_with_diag. apply Forall_fmap, Forall_forall.
  intros a _. simpl. ring.
Qed.

Lemma all_zero_gather (js : list nat) (u : list R) :
  all_zero u -> all_zero (gather js u).
Proof.
  intros Hu. apply Forall_fmap, Forall_forall. intros j _. simpl.
  destruct (nth_lookup_or_length u j s0) as [Hj|Hj].
  - by apply (Forall_lookup_1 _ _ _ _ Hu Hj).
  - by rewrite nth_overflow.
Qed.

Lemma dot_zero_l (u v : list R) : all_zero u -> dot u v = s0.
Proof.
  intros Hu. revert v. induction Hu as [|a u -> _ IH]; intros [|b v]; try done.
  unfold dot in *. simpl. rewrite IH. ring.
Qed.

Lemma add_zero_r (x c : list R) :
  all_zero c -> length x <= length c -> zip_with sadd x c = x.
Proof.
  intros Hc. revert x.
  induction Hc as [|a c -> _ IH]; intros [|b x] Hlen; simpl in *; try done; try lia.
  rewrite IH by lia. f_equal. ring.
Qed.

Lemma add_zero_rows (d : nat) (M c : list (list R)) :
  wf_rows d M ->
  Forall (fun row => length row = d /\ all_zero row) c ->
  length c = length M ->
  zip_with (zip_with sadd) M c = M.
Proof.
  intros HM. revert c.
  induction HM as [|x M Hx _ IH]; intros [|r c] Hc Hlen; simplify_eq/=; [done|].
  apply Forall_cons in Hc as [[Hr Hr0] Hc].
  rewrite IH by done. f_equal. apply add_zero_r; [done|lia].
Qed.

(** Adding a batch of zero matrices changes nothing. *)
Lemma add_zero_mats (s d : nat) (Ms cs : list (list (list R))) :
  Forall (fun M => length M = s /\ wf_rows d M) Ms ->
  Forall (fun c => length c = s /\
                   Forall (fun row => length row = d /\ all_zero row) c) cs ->
  length cs = length Ms ->
  zip_with (zip_with (zip_with sadd)) Ms cs = Ms.
Proof.
  intros HMs. revert cs.
  induction HMs as [|M Ms [HM HMr] _ IH]; intros [|c cs] Hcs Hlen;
    simplify_eq/=; [done|].
  apply Forall_cons in Hcs as [[Hc Hcr] Hcs].
  rewrite IH by done. f_equal. apply (add_zero_rows d); [done..|congruence].
Qed.

Lemma dot_comm (u v : list R) : dot u v = dot v u.
Proof.
  unfold dot. revert v. induction u as [|a u IH]; intros [|b v]; simpl; try done.
  rewrite IH. f_equal. ring.
Qed.

Lemma gather_seq (u : list R) : gather (seq 0 (length u)) u = u.
Proof. apply map_nth_seq. Qed.

Lemma vec_mat_transpose_mat (v : list R) (M : Mat R) :
  wf_mat M -> vec_mat v (transpose M) = map (dot v) (rows M).
Proof. destruct M as [k N]. intros HN. by apply (vec_mat_transpose v k N). Qed.

Lemma transpose_involutive (M : Mat R) : wf_mat M -> transpose (transpose M) = M.
Proof.
  destruct M as [k N]. intros HN. unfold transpose at 1. cbn [cols rows].
  f_equal.
  - unfold transpose. cbn [rows cols]. by rewrite length_fmap, length_seq.
  - etransitivity; [|apply (map_nth_seq [] N)].
    apply list_fmap_ext. intros i e [Hei He]%lookup_seq. simpl in Hei. subst e.
    by apply col_transpose.
Qed.

Lemma mat_vec_transpose (M : Mat R) (x : list R) :
  mat_vec (transpose M) x = vec_mat x M.
Proof.
  unfold mat_vec, vec_mat, transpose. cbn [rows].
  rewrite <- list_fmap_compose. apply list_fmap_ext. intros i c _.
  unfold compose. apply dot_comm.
Qed.

Lemma vsum_zero {A} (l : list A) : vsum (map (fun _ => s0) l) = s0.
Proof. induction l as [|x l IH]; csimpl; [done|]. rewrite IH. ring. Qed.

Lemma vsum_add {A} (f1 f2 : A -> R) (l : list A) :
  vsum (map (fun x => sadd (f1 x) (f2 x)) l) =
  sadd (vsum (map f1 l)) (vsum (map f2 l)).
Proof. induction l as [|x l IH]; csimpl; [ring|]. rewrite IH. ring. Qed.

Lemma vsum_single `{EqDecision A} (f : A -> R) (a : A) (l : list A) :
  NoDup l -> a ∈ l ->
  vsum (map (fun x => if decide (x = a) then f x else s0) l) = f a.
Proof.
  induction 1 as [|x l Hx Hl IH]; intros Ha; [by apply elem_of_nil in Ha|].
  csimpl. apply elem_of_cons in Ha as [->|Ha].
  - rewrite decide_True by done.
    rewrite (list_fmap_ext _ (fun _ => s0) l), vsum_zero; [ring|].
    intros i y Hy. rewrite decide_False; [done|].
    intros ->. apply Hx. by eapply list_elem_of_lookup_2.
  - rewrite decide_False by (intros ->; done). rewrite IH by done. ring.
Qed.

(** The sum over a duplicate-free selection is the sum over all coordinates
    in which the terms of the unselected coordinates are replaced by zero. *)
Lemma vsum_mask `{EqDecision A} (f : A -> R) (sel all : list A) :
  NoDup sel -> NoDup all -> sel ⊆ all ->
  vsum (map f sel) =
  vsum (map (fun x => if decide (x ∈ sel) then f x else s0) all).
Proof.
  intros Hsel Hall. induction Hsel as [|a sel Ha Hsel IH]; intros Hsub.
  - rewrite (list_fmap_ext _ (fun _ => s0) all), vsum_zero; [done|].
    intros i y _. by rewrite decide_False by apply not_elem_of_nil.
  - csimpl. rewrite IH by set_solver.
    rewrite <- (vsum_single f a all) by set_solver.
    rewrite <- vsum_add. f_equal. apply list_fmap_ext. intros i y _.
    destruct (decide (y ∈ a :: sel)) as [Hy|Hy], (decide (y = a)) as [Hya|Hya],
    (decide (y ∈ sel)) as [Hys|Hys]; try ring;
    exfalso; rewrite elem_of_cons in Hy; subst; tauto.
Qed.

End TensorFacts.

(** ** The steps of [forward] *)

Section InterventionFacts.
Context {R : Type} `{Scalar R} {G : Type}.
Implicit Types (self : LoreftIntervention R G) (base : Tensor3 R).

Lemma rotate_layer_spec self base :
  wf_module self ->
  rotate_layer self base =
  if decide (feat base = embed_dim self) then
    Ok (rows_map (fun x => vec_mat x (rotate_layer_weight self))
          (low_rank_dimension self) base)
  else Err RuntimeError.
Proof.
  intros (_ & Hd & Hr & _). unfold rotate_layer, matmul. by rewrite Hd, Hr.
Qed.

Lemma learned_source_spec self base :
  wf_module self -> wf_tensor base ->
  learned_source self base =
  if decide (feat base = embed_dim self) then
    Ok (rows_map
          (fun x => zip_with sadd
                      (vec_mat x (transpose (learned_source_weight self)))
                      (learned_source_bias self))
          (low_rank_dimension self) base)
  else Err RuntimeError.
Proof.
  intros (_ & _ & _ & _ & HLr & HLd & Hb) Hbase.
  unfold learned_source, matmul.
  simpl. rewrite length_fmap, length_seq, HLd.
  case_decide as Hfeat; [|reflexivity]. cbn [mbind result_bind].
  rewrite HLr, <- Hb.
  rewrite add_bias; simpl; [| apply wf_rows_map; [|done] | done].
  - by rewrite rows_map_compose.
  - intros x _. rewrite length_vec_mat. simpl. by rewrite HLr.
Qed.

Lemma residual_spec self base :
  wf_module self -> wf_tensor base ->
  residual self base =
  if decide (feat base = embed_dim self) then
    Ok (rows_map (residual_row self) (low_rank_dimension self) base)
  else Err RuntimeError.
Proof.
  intros Hself Hbase. unfold residual.
  rewrite rotate_layer_spec, learned_source_spec by done.
  case_decide as Hfeat; [|reflexivity]. cbn [mbind result_bind].
  destruct Hself as (_ & _ & Hr & _ & HLr & _ & Hb).
  unfold tensor_map. cbn [feat rows_map]. fold (rows_map (R:=R)).
  rewrite rows_map_compose.
  unfold tensor_sub. rewrite broadcast_op_rows_map; [done | done | |].
  - intros x _. rewrite length_fmap, length_zip_with, length_vec_mat. simpl. lia.
  - intros x _. rewrite length_vec_mat. congruence.
Qed.

Lemma length_correction_row self js x :
  length (correction_row self js x) = length (rows (rotate_layer_weight self)).
Proof. unfold correction_row. by rewrite length_fmap. Qed.

Lemma corrections_eq self (Ms : list (list (list R))) (jss : list (list nat)) :
  zip_with
    (fun x y =>
       map (fun r => vec_mat r (mkMat (length (rows (rotate_layer_weight self))) y)) x)
    (map rows (zip_with (fun M js => select js M)
                 (map (map (residual_row self)) Ms) jss))
    (map rows (map (fun js => transpose (select js (rows (rotate_layer_weight self))))
                 jss))
  = zip_with (fun M js => map (correction_row self js) M) Ms jss.
Proof.
  revert jss. induction Ms as [|M Ms IH]; intros [|js jss]; csimpl; try done.
  rewrite IH. f_equal.
  rewrite <- !list_fmap_compose. apply list_fmap_ext. intros i x _.
  unfold compose.
  transitivity (map (dot (gather js (residual_row self x)))
                    (map (gather js) (rows (rotate_layer_weight self)))).
  - rewrite <- (length_fmap (gather js) (rows (rotate_layer_weight self))).
    apply (vec_mat_transpose _ (length js)), (wf_rows_select js).
  - unfold correction_row. by rewrite <- list_fmap_compose.
Qed.

Lemma tail_spec self base (jss : list (list nat)) :
  wf_module self -> wf_tensor base -> feat base = embed_dim self ->
  length jss <= length (mats base) ->
  (bs ← stack (zip_with (fun M js => select js M)
                 (map (map (residual_row self)) (mats base)) jss);
   bw ← stack (map (fun js => transpose (select js (rows (rotate_layer_weight self))))
                 jss);
   c ← bmm bs bw;
   tensor_add base c)
  = match jss with
    | [] => Err RuntimeError
    | js0 :: _ =>
        if decide (Forall (fun js => length js = length js0) jss) then
          b ← broadcast_dim (length (mats base)) (length jss);
          Ok {| seq_len := seq_len base; feat := feat base;
                mats := zip_with (zip_with (zip_with sadd)) (mats base)
                          (expand b
                             (zip_with (fun M js => map (correction_row self js) M)
                                (mats base) jss)) |}
        else Err RuntimeError
    end.
Proof.
  intros (HW & Hd & Hr & _) Hbase Hfeat Hlen.
  destruct jss as [|js0 jss].
  { rewrite zip_with_nil_r. reflexivity. }
  destruct (mats base) as [|M0 Ms] eqn:HB; [simpl in Hlen; lia|].
  pose proof Hbase as Hbase'. unfold wf_tensor in Hbase'. rewrite HB in Hbase'.
  apply Forall_cons in Hbase' as [[HM0 HM0r] HMs].
  simpl in Hlen.
  rewrite (fmap_cons (map (residual_row self))), (stack_lhs (seq_len base)); cycle 1.
  { by rewrite length_fmap. }
  { apply Forall_fmap. eapply Forall_impl; [exact HMs|].
    intros M [HM _]. simpl. by rewrite length_fmap. }
  { rewrite length_fmap. lia. }
  rewrite stack_rhs.
  rewrite (if_decide_iff (Forall _ (js0 :: jss))
             (Forall (fun js => length js = length js0) jss))
    by (rewrite Forall_cons; tauto).
  case_decide as Hk; [|reflexivity].
  cbn [mret result_ret mbind result_bind].
  unfold bmm. cbn [mats feat seq_len].
  rewrite decide_True.
  2:{ split; [|done].
      rewrite !length_fmap, length_zip_with. simpl. rewrite length_fmap. lia. }
  cbn [mret result_ret mbind result_bind].
  rewrite <- (fmap_cons (map (residual_row self))), corrections_eq.
  unfold tensor_add, broadcast_op. cbn [mats feat seq_len].
  rewrite HB, Hfeat, <- Hd, !broadcast_dim_same.
  cbn [mret result_ret mbind result_bind].
  rewrite length_zip_with.
  replace (length (M0 :: Ms) `min` length (js0 :: jss)) with (length (js0 :: jss))
    by (simpl; lia).
  destruct (broadcast_dim _ _) as [b|e] eqn:Hb; [|reflexivity].
  cbn [mret result_ret mbind result_bind]. do 2 f_equal.
  apply broadcast_dim_le in Hb; [|simpl; lia]. subst b.
  f_equal.
  - rewrite <- HB, Hd, <- Hfeat. by apply expand3_id.
  - unfold expand3. cbn [mats]. f_equal. apply map_id_Forall.
    apply Forall_forall. intros c Hc.
    apply elem_of_lookup_zip_with in Hc as (i & M & js & -> & HM & Hjs).
    rewrite <- HB in HM.
    destruct (Forall_lookup_1 _ _ _ _ Hbase HM) as [HMs' _].
    apply expand_rows_id; [by rewrite length_fmap|].
    apply Forall_fmap, Forall_forall. intros x _. simpl.
    apply length_correction_row.
Qed.

Lemma gated_output_Ok self base subspaces out :
  wf_module self -> wf_tensor base ->
  gated_output self base subspaces = Ok out <->
  feat base = embed_dim self /\
  exists jss js0 b,
    indices_ok self subspaces jss /\
    jss !! 0 = Some js0 /\
    Forall (fun js => length js = length js0) jss /\
    length jss <= length (mats base) /\
    broadcast_dim (length (mats base)) (length jss) = Ok b /\
    out = {| seq_len := seq_len base; feat := feat base;
             mats := zip_with (zip_with (zip_with sadd)) (mats base)
                       (expand b
                          (zip_with (fun M js => map (correction_row self js) M)
                             (mats base) jss)) |}.
Proof.
  intros Hself Hbase. unfold gated_output.
  rewrite residual_spec by done.
  case_decide as Hfeat; [|split; [discriminate|tauto]].
  cbn [mbind result_bind].
  pose proof Hself as (_ & _ & Hr & _).
  split.
  - intros Hg. split; [done|].
    apply bind_Ok in Hg as ([Ls Rs] & Hc & Hg).
    apply collect_Ok in Hc as (jss & Hjss & Hlen & -> & ->); [|by rewrite Hr].
    cbn [rows_map mats] in *. cbn beta iota in Hg. rewrite drop_0 in Hg.
    rewrite length_fmap, Nat.sub_0_r in Hlen.
    rewrite (Forall2_length _ _ _ Hjss) in Hlen.
    rewrite tail_spec in Hg by done.
    destruct jss as [|js0 jss]; [discriminate|].
    case_decide as Hk; [|discriminate].
    apply bind_Ok in Hg as (b & Hb & [= <-]).
    exists (js0 :: jss), js0, b. unfold indices_ok. rewrite <- Hr. done.
  - intros (_ & jss & js0 & b & Hjss & Hjs0 & Hk & Hlen & Hb & ->).
    destruct jss as [|js0' jss]; [discriminate|]. injection Hjs0 as ->.
    assert (Hc : collect (rows_map (residual_row self) (low_rank_dimension self) base)
                   (rotate_layer_weight self) subspaces 0 =
                 Ok (zip_with (fun M js => select js M)
                       (map (map (residual_row self)) (mats base)) (js0 :: jss),
                     map (fun js => transpose (select js (rows (rotate_layer_weight self))))
                       (js0 :: jss))).
    { apply collect_Ok; [by rewrite Hr|]. exists (js0 :: jss).
      unfold indices_ok in Hjss. rewrite Hr.
      split; [done|]. split; [|done].
      cbn [rows_map mats]. rewrite length_fmap, Nat.sub_0_r.
      by rewrite (Forall2_length _ _ _ Hjss). }
    rewrite Hc. cbn [mbind result_bind].
    rewrite tail_spec by done.
    rewrite decide_True by done. rewrite Hb. reflexivity.
Qed.

Lemma forward_gated self (g : G) base source subspaces :
  forward self g base source (Some subspaces) =
  output ← gated_output self base subspaces; Ok (dropout self g output).
Proof.
  unfold forward, gated_output, residual.
  destruct (rotate_layer self base) as [rb|]; [|done]. cbn [mbind result_bind].
  destruct (learned_source self base) as [ls|]; [|done]. cbn [mbind result_bind].
  destruct (tensor_sub _ _) as [diff|]; [|done]. cbn [mbind result_bind].
  destruct (collect _ _ _ _) as [[Ls Rs]|]; [|done]. cbn [mbind result_bind].
  destruct (stack Ls) as [bs|]; [|done]. cbn [mbind result_bind].
  destruct (stack Rs) as [bw|]; [|done]. cbn [mbind result_bind].
  destruct (bmm bs bw) as [c|]; [|done]. cbn [mbind result_bind].
  by destruct (tensor_add base c).
Qed.

Lemma add_corrections self (js : list nat) (M : list (list R)) :
  zip_with (zip_with sadd) M (map (correction_row self js) M) =
  map (fun x => zip_with sadd x (correction_row self js x)) M.
Proof. by rewrite zip_with_fmap_r, zip_with_diag. Qed.

(** The batch, one index list per example, all of the same length. *)
Lemma gated_output_full self base subspaces jss (k : nat) :
  wf_module self -> wf_tensor base -> feat base = embed_dim self ->
  indices_ok self subspaces jss ->
  Forall (fun js => length js = k) jss ->
  0 < length subspaces -> length subspaces = length (mats base) ->
  gated_output self base subspaces =
  Ok {| seq_len := seq_len base; feat := feat base;
        mats := zip_with
                  (fun M js => map (fun x => zip_with sadd x (correction_row self js x)) M)
                  (mats base) jss |}.
Proof.
  intros Hself Hbase Hfeat Hjss Hk Hpos Hlen.
  apply gated_output_Ok; [done..|]. split; [done|].
  pose proof (Forall2_length _ _ _ Hjss) as Hl.
  destruct jss as [|js0 jss]; [simpl in Hl; lia|].
  exists (js0 :: jss), js0, (length (mats base)).
  split; [done|]. split; [done|].
  split. { apply Forall_cons in Hk as [<- Hk]. by constructor. }
  split; [lia|]. rewrite <- Hl, Hlen.
  split; [apply broadcast_dim_same|].
  f_equal. rewrite expand_id by (rewrite length_zip_with; lia).
  generalize (js0 :: jss). generalize (mats base).
  induction l as [|M Ms IH]; intros [|js l']; csimpl; [done..|].
  by rewrite IH, add_corrections.
Qed.

(** Whenever [forward] gets to its last line, the entry of [output] for an
    example that has an index list is what [example_output] computes from
    that example alone. *)
Lemma gated_output_example self base subspaces out (i : nat) (idx : list Z) :
  wf_module self -> wf_tensor base ->
  gated_output self base subspaces = Ok out ->
  subspaces !! i = Some idx ->
  exists M o,
    mats base !! i = Some M /\ example_output self M idx = Ok o /\
    mats out !! i = Some o.
Proof.
  intros Hself Hbase Hout Hidx.
  apply gated_output_Ok in Hout
    as (Hfeat & jss & js0 & b & Hjss & Hjs0 & Hk & Hlen & Hb & ->); [|done..].
  destruct (Forall2_lookup_l _ _ _ _ _ Hjss Hidx) as (js & Hjs & Hidxjs).
  pose proof (lookup_lt_Some _ _ _ Hjs) as Hi.
  destruct (lookup_lt_is_Some_2 (mats base) i) as [M HM]; [lia|].
  exists M, (map (fun x => zip_with sadd x (correction_row self js x)) M).
  split; [done|]. split.
  { unfold example_output. by rewrite Hidxjs. }
  cbn [mats]. rewrite lookup_zip_with, HM. cbn [mbind option_bind].
  rewrite (expand_lookup _ _ _ (map (correction_row self js) M)).
  - cbn [mbind option_bind]. by rewrite add_corrections.
  - by rewrite lookup_zip_with, HM, Hjs.
  - rewrite length_zip_with.
    apply broadcast_dim_le in Hb as Hb'; [|lia]. subst b.
    unfold broadcast_dim in Hb. repeat case_decide; simplify_eq; lia.
Qed.

Lemma norm_index_valid (r : nat) (j : Z) :
  valid_index r j -> norm_index r j = Ok (Z.to_nat j).
Proof. intros Hj. unfold norm_index. by rewrite decide_True. Qed.

Lemma valid_indices_ok self (subspaces : list (list Z)) :
  Forall (Forall (valid_index (low_rank_dimension self))) subspaces ->
  indices_ok self subspaces (map (map Z.to_nat) subspaces).
Proof.
  intros Hs. unfold indices_ok. apply Forall2_fmap_r, Forall_Forall2_diag.
  eapply Forall_impl; [exact Hs|]. intros idx Hidx. simpl.
  apply try_all_Ok, Forall2_fmap_r, Forall_Forall2_diag.
  eapply Forall_impl; [exact Hidx|]. intros j Hj. by apply norm_index_valid.
Qed.

Lemma gated_output_valid self base subspaces :
  wf_module self -> wf_tensor base -> feat base = embed_dim self ->
  valid_subspaces self base subspaces ->
  gated_output self base subspaces =
  Ok {| seq_len := seq_len base; feat := feat base;
        mats := zip_with
                  (fun M js => map (fun x => zip_with sadd x (correction_row self js x)) M)
                  (mats base) (map (map Z.to_nat) subspaces) |}.
Proof.
  intros Hself Hbase Hfeat (Hpos & Hlen & Hvalid & k & Hk).
  apply (gated_output_full _ _ _ _ k); try done.
  - by apply valid_indices_ok.
  - apply Forall_fmap. eapply Forall_impl; [exact Hk|].
    intros idx Hidx. simpl. by rewrite length_fmap.
  - lia.
Qed.

(** The rows of the batch whose residual vanishes. *)
Lemma residual_zero self base rb :
  wf_module self -> wf_tensor base ->
  rotate_layer self base = Ok rb ->
  tensor_map (act_fn self) <$> learned_source self base = Ok rb ->
  feat base = embed_dim self /\
  Forall (Forall (fun x => all_zero (residual_row self x))) (mats base).
Proof.
  intros Hself Hbase Hrot Hls.
  rewrite rotate_layer_spec in Hrot by done.
  rewrite learned_source_spec in Hls by done.
  case_decide as Hfeat; [|discriminate]. split; [done|].
  cbn [fmap result_fmap] in Hls. injection Hrot as <-. injection Hls as Hls.
  rewrite <- list_fmap_compose in Hls.
  apply fmap_eq_Forall in Hls. eapply Forall_impl; [exact Hls|].
  intros M HM. unfold compose in HM. rewrite <- list_fmap_compose in HM.
  apply fmap_eq_Forall in HM.
  eapply Forall_impl; [exact HM|]. intros x Hx. unfold compose in Hx.
  unfold residual_row. rewrite Hx. apply all_zero_sub_diag.
Qed.

Lemma gated_output_zero self base subspaces out :
  wf_module self -> wf_tensor base ->
  Forall (Forall (fun x => all_zero (residual_row self x))) (mats base) ->
  gated_output self base subspaces = Ok out -> out = base.
Proof.
  intros Hself Hbase Hzero Hout.
  apply gated_output_Ok in Hout
    as (Hfeat & jss & js0 & b & Hjss & Hjs0 & Hk & Hlen & Hb & ->); [|done..].
  destruct base as [s d Ms]. cbn [mats seq_len feat] in *. f_equal.
  pose proof (lookup_lt_Some _ _ _ Hjs0) as Hpos.
  apply (add_zero_mats s d); [done| |].
  - apply Forall_expand, Forall_forall. intros c Hc.
    apply elem_of_lookup_zip_with in Hc as (i & M & js & -> & HM & Hjs).
    destruct (Forall_lookup_1 _ _ _ _ Hbase HM) as [HMs HMr].
    pose proof (Forall_lookup_1 _ _ _ _ Hzero HM) as HMz.
    split; [by rewrite length_fmap|].
    apply Forall_fmap. eapply Forall_impl; [exact HMz|]. intros x Hx. simpl.
    destruct Hself as (_ & Hd & _).
    split; [rewrite length_correction_row; congruence|].
    apply Forall_fmap, Forall_forall. intros w _. simpl.
    by apply dot_zero_l, all_zero_gather.
  - apply broadcast_dim_le in Hb as Hb'; [|lia]. subst b.
    apply expand_length. rewrite length_zip_with.
    unfold broadcast_dim in Hb. repeat case_decide; simplify_eq; lia.
Qed.

Lemma length_residual_row self (x : list R) :
  wf_module self -> length (residual_row self x) = low_rank_dimension self.
Proof.
  intros (_ & _ & Hr & _ & HLr & _ & Hb). unfold residual_row.
  rewrite length_zip_with, length_fmap, length_zip_with, !length_vec_mat.
  simpl. lia.
Qed.

(** With every coordinate selected, the gated correction of a vector is the
    un-gated one. *)
Lemma full_range_vector self (x : list R) :
  wf_module self ->
  zip_with sadd x (correction_row self (seq 0 (low_rank_dimension self)) x) =
  loreft_vector self x.
Proof.
  intros Hself. pose proof Hself as (HW & _ & Hr & HL & _).
  unfold loreft_vector, correction_row, rotation. f_equal.
  rewrite transpose_involutive by done.
  rewrite mat_vec_transpose.
  pose proof (gather_seq (residual_row self x)) as Hg.
  rewrite (length_residual_row self x Hself) in Hg. rewrite Hg. clear Hg.
  unfold mat_vec at 1.
  replace (mat_vec (learned_source_weight self) x)
    with (vec_mat x (transpose (learned_source_weight self))).
  2:{ rewrite vec_mat_transpose_mat by done. unfold mat_vec.
      apply list_fmap_ext. intros i w _. apply dot_comm. }
  fold (residual_row self x).
  apply Forall_fmap_ext. eapply Forall_impl; [exact HW|].
  intros w Hw. simpl. pose proof (gather_seq w) as Hg.
  rewrite Hw, Hr in Hg. rewrite Hg. apply dot_comm.
Qed.

Lemma full_range_valid self base :
  0 < length (mats base) ->
  valid_subspaces self base (replicate (length (mats base)) (full_range self)).
Proof.
  intros Hpos. split; [done|]. split; [by rewrite length_replicate|].
  split.
  - apply Forall_replicate. unfold full_range. apply Forall_fmap, Forall_forall.
    intros j [_ Hj]%elem_of_seq. unfold valid_index. simpl. lia.
  - exists (length (full_range self)). by apply Forall_replicate.
Qed.

Lemma dot_gather (js : list nat) (u w : list R) :
  dot (gather js u) (gather js w) =
  vsum (map (fun j => smul (nth j u s0) (nth j w s0)) js).
Proof. unfold dot, gather. by rewrite zip_with_map_same. Qed.

Lemma entry3_lookup (X : Tensor3 R) (i t e : nat) (M : list (list R))
    (x : list R) (a : R) :
  mats X !! i = Some M -> M !! t = Some x -> x !! e = Some a ->
  entry3 X i t e = a.
Proof.
  intros HM Hx Ha. unfold entry3.
  by rewrite (nth_lookup_Some _ _ _ _ HM), (nth_lookup_Some _ _ _ _ Hx),
    (nth_lookup_Some _ _ _ _ Ha).
Qed.

End InterventionFacts.

(** ** The claims about [SubloreftIntervention.forward] *)

Section ForwardClaims.
Context {R : Type} `{Scalar R} {G : Type}.
Implicit Types (self : LoreftIntervention R G) (base : Tensor3 R).

(** C1. When the learned source transformation reproduces the rotated base
    exactly, [act_fn (learned_source base) = rotate_layer base], and the
    module is in evaluation mode, [forward] returns the unmodified
    representation: whatever the index lists, a call that returns returns
    [base], and for valid per-example index lists the call does return. *)
Theorem forward_zero_residual self (g : G) base source subspaces rb :
  wf_module self -> wf_tensor base -> training self = false ->
  rotate_layer self base = Ok rb ->
  tensor_map (act_fn self) <$> learned_source self base = Ok rb ->
  (forall r, forward self g base source (Some subspaces) = Ok r -> r = (base, g)) /\
  (valid_subspaces self base subspaces ->
   forward self g base source (Some subspaces) = Ok (base, g)).
Proof.
  intros Hself Hbase Htrain Hrot Hls.
  destruct (residual_zero self base rb) as [Hfeat Hzero]; [done..|].
  assert (Hret : forall r, forward self g base source (Some subspaces) = Ok r ->
                           r = (base, g)).
  { intros r Hr. rewrite forward_gated in Hr.
    apply bind_Ok in Hr as (out & Hout & [= <-]).
    apply gated_output_zero in Hout as ->; [|done..].
    unfold dropout. by rewrite Htrain. }
  split; [exact Hret|]. intros Hvalid.
  destruct (forward self g base source (Some subspaces)) as [r|e] eqn:Hfwd.
  - by rewrite (Hret r).
  - rewrite forward_gated, gated_output_valid in Hfwd by done. discriminate.
Qed.

(** C2. For a batch with at least one example, [forward] called with the
    full index range [0, ..., low_rank_dimension - 1] for every example
    returns what the un-gated intervention of the base class returns,
    [base + R^T (act_fn (W b + s) - R b)] followed by the same dropout. *)
Theorem forward_full_range self (g : G) base source :
  wf_module self -> wf_tensor base -> 0 < length (mats base) ->
  forward self g base source
    (Some (replicate (length (mats base)) (full_range self))) =
  loreft_forward self g base.
Proof.
  intros Hself Hbase Hpos. rewrite forward_gated. unfold loreft_forward.
  case_decide as Hfeat.
  - rewrite gated_output_valid by (done || by apply full_range_valid).
    cbn [mbind result_bind]. do 2 f_equal. unfold rows_map. f_equal.
    rewrite fmap_replicate. unfold full_range.
    rewrite <- list_fmap_compose.
    rewrite (list_fmap_ext _ id (seq 0 _)) by (intros; apply Nat2Z.id).
    rewrite list_fmap_id.
    rewrite zip_with_replicate_r_eq by done.
    apply list_fmap_ext. intros i M _. simpl.
    apply list_fmap_ext. intros j x _. by apply full_range_vector.
  - unfold gated_output. rewrite residual_spec by done.
    by rewrite decide_False.
Qed.

(** C3. For valid per-example index lists, the correction that [forward]
    adds to entry [(i, t, e)] of the representation is the sum, over the
    selected coordinates [j] of example [i] only, of [diff[i, t, j]] times
    [rotate_layer.weight[e, j]], that is [diff[selected] @ R[:, selected]^T];
    for a selection without repetitions this is the un-gated sum over all
    coordinates in which every unselected coordinate contributes zero. *)
Theorem forward_selected_coordinates self (g : G) base source subspaces diff :
  wf_module self -> wf_tensor base -> valid_subspaces self base subspaces ->
  residual self base = Ok diff ->
  exists output,
    forward self g base source (Some subspaces) = Ok (dropout self g output) /\
    forall (i t e : nat) (idx : list Z),
      subspaces !! i = Some idx -> t < seq_len base -> e < feat base ->
      let term (j : Z) :=
        smul (entry3 diff i t (Z.to_nat j))
             (entry2 (rotate_layer_weight self) e (Z.to_nat j)) in
      entry3 output i t e = sadd (entry3 base i t e) (vsum (map term idx)) /\
      (NoDup idx ->
       vsum (map term idx) =
       vsum (map (fun j => if decide (j ∈ idx) then term j else s0)
                 (seqZ 0 (Z.of_nat (low_rank_dimension self))))).
Proof.
  intros Hself Hbase Hvalid Hdiff.
  rewrite residual_spec in Hdiff by done.
  case_decide as Hfeat; [|discriminate]. injection Hdiff as <-.
  eexists. split.
  { rewrite forward_gated, gated_output_valid by done. reflexivity. }
  intros i t e idx Hidx Ht He term.
  destruct Hvalid as (Hpos & Hlen & Hval & _).
  pose proof (lookup_lt_Some _ _ _ Hidx) as Hi. rewrite Hlen in Hi.
  destruct (lookup_lt_is_Some_2 (mats base) i Hi) as [M HM].
  destruct (Forall_lookup_1 _ _ _ _ Hbase HM) as [HMs HMr].
  destruct (lookup_lt_is_Some_2 M t) as [x Hx]; [lia|].
  pose proof (Forall_lookup_1 _ _ _ _ HMr Hx) as Hxlen. simpl in Hxlen.
  destruct (lookup_lt_is_Some_2 x e) as [a Ha]; [lia|].
  destruct Hself as (HW & Hd & Hr & _).
  destruct (lookup_lt_is_Some_2 (rows (rotate_layer_weight self)) e) as [w Hw];
    [lia|].
  assert (Hterm : forall j, term j =
            smul (nth (Z.to_nat j) (residual_row self x) s0) (nth (Z.to_nat j) w s0)).
  { intros j. unfold term. f_equal.
    - unfold entry3, rows_map. cbn [mats].
      rewrite (nth_lookup_Some _ i [] (map (residual_row self) M))
        by (by rewrite list_lookup_fmap, HM).
      by rewrite (nth_lookup_Some _ t [] (residual_row self x))
        by (by rewrite list_lookup_fmap, Hx).
    - unfold entry2. by rewrite (nth_lookup_Some _ _ _ _ Hw). }
  split.
  - rewrite (entry3_lookup base i t e M x a) by done.
    apply (entry3_lookup _ i t e
             (map (fun x => zip_with sadd x
                              (correction_row self (map Z.to_nat idx) x)) M)
             (zip_with sadd x (correction_row self (map Z.to_nat idx) x))).
    + cbn [mats]. by rewrite lookup_zip_with, HM, list_lookup_fmap, Hidx.
    + by rewrite list_lookup_fmap, Hx.
    + rewrite lookup_zip_with, Ha. cbn [mbind option_bind].
      unfold correction_row. rewrite list_lookup_fmap, Hw.
      cbn [fmap option_fmap option_map mbind option_bind].
      do 2 f_equal. rewrite dot_gather, <- list_fmap_compose. f_equal.
      apply list_fmap_ext. intros n j _. unfold compose. by rewrite Hterm.
  - intros Hnd. apply vsum_mask; [done|apply NoDup_seqZ|].
    intros j Hj. apply elem_of_seqZ.
    pose proof (Forall_lookup_1 _ _ _ _ Hval Hidx) as Hrange.
    rewrite Forall_forall in Hrange. specialize (Hrange j Hj).
    unfold valid_index in Hrange. lia.
Qed.

(** C4. Without index lists ([subspaces] is [None]) [forward] raises an
    assertion error, whatever [base] and [source] are. *)
Theorem forward_requires_subspaces self (g : G) base source :
  forward self g base source None = Err AssertionError.
Proof. reflexivity. Qed.

(** C5. Two batches agree on the hidden states [M] and on the index list
    [idx] of example [i].  Whenever [forward] gets to its last line on both,
    the entries of [output] for example [i] are equal, and equal to what
    [example_output] computes from the module, [M] and [idx] alone; in
    evaluation mode these are the entries of the returned tensors. *)
Theorem forward_example_independent self (g1 g2 : G) base1 base2 source1 source2
    subspaces1 subspaces2 (i : nat) (idx : list Z) (M : list (list R)) :
  wf_module self -> wf_tensor base1 -> wf_tensor base2 ->
  mats base1 !! i = Some M -> mats base2 !! i = Some M ->
  subspaces1 !! i = Some idx -> subspaces2 !! i = Some idx ->
  (forall output1 output2,
     gated_output self base1 subspaces1 = Ok output1 ->
     gated_output self base2 subspaces2 = Ok output2 ->
     exists o, example_output self M idx = Ok o /\
               mats output1 !! i = Some o /\ mats output2 !! i = Some o) /\
  (training self = false ->
   forall r1 r2,
     forward self g1 base1 source1 (Some subspaces1) = Ok r1 ->
     forward self g2 base2 source2 (Some subspaces2) = Ok r2 ->
     mats r1.1 !! i = mats r2.1 !! i).
Proof.
  intros Hself Hbase1 Hbase2 HM1 HM2 Hidx1 Hidx2.
  assert (Hpre : forall output1 output2,
             gated_output self base1 subspaces1 = Ok output1 ->
             gated_output self base2 subspaces2 = Ok output2 ->
             exists o, example_output self M idx = Ok o /\
                       mats output1 !! i = Some o /\ mats output2 !! i = Some o).
  { intros output1 output2 Hout1 Hout2.
    destruct (gated_output_example self base1 subspaces1 output1 i idx
                Hself Hbase1 Hout1 Hidx1) as (M1 & o1 & HM1' & Ho1 & Hlook1).
    destruct (gated_output_example self base2 subspaces2 output2 i idx
                Hself Hbase2 Hout2 Hidx2) as (M2 & o2 & HM2' & Ho2 & Hlook2).
    simplify_eq. rewrite Ho1 in Ho2. injection Ho2 as <-. by exists o1. }
  split; [exact Hpre|].
  intros Htrain r1 r2 Hr1 Hr2. rewrite forward_gated in Hr1, Hr2.
  apply bind_Ok in Hr1 as (output1 & Hout1 & [= <-]).
  apply bind_Ok in Hr2 as (output2 & Hout2 & [= <-]).
  unfold dropout. rewrite Htrain. simpl.
  destruct (Hpre output1 output2) as (o & _ & -> & ->); done.
Qed.

(** C6, amended. For a non-empty batch in which every example carries a
    list of valid coordinate indices and all lists have the same length
    (the examples may select different coordinates), [forward] returns: each
    example's entry of [output] is computed from that example alone, and the
    returned tensor has the shape of the input batch. *)
Theorem forward_batch_shape self (g : G) base source subspaces :
  wf_module self -> dropout_keeps_shape self ->
  wf_tensor base -> feat base = embed_dim self ->
  valid_subspaces self base subspaces ->
  exists output,
    forward self g base source (Some subspaces) = Ok (dropout self g output) /\
    shape3 (dropout self g output).1 = shape3 base /\
    forall (i : nat) (idx : list Z) (M : list (list R)),
      subspaces !! i = Some idx -> mats base !! i = Some M ->
      exists o, example_output self M idx = Ok o /\ mats output !! i = Some o.
Proof.
  intros Hself Hdrop Hbase Hfeat Hvalid.
  pose proof (gated_output_valid self base subspaces Hself Hbase Hfeat Hvalid)
    as Hout.
  eexists. split; [by rewrite forward_gated, Hout|].
  assert (Hshape : shape3 {| seq_len := seq_len base; feat := feat base;
            mats := zip_with
              (fun M js => map (fun x => zip_with sadd x (correction_row self js x)) M)
              (mats base) (map (map Z.to_nat) subspaces) |} = shape3 base).
  { destruct Hvalid as (_ & Hlen & _). unfold shape3. cbn [mats seq_len feat].
    rewrite length_zip_with, length_fmap, Hlen. do 2 f_equal. lia. }
  split.
  - unfold dropout. destruct (training self); [|done].
    by rewrite Hdrop.
  - intros i idx M Hidx HM.
    destruct (gated_output_example self base subspaces _ i idx Hself Hbase Hout Hidx)
      as (M' & o & HM' & Ho & Hlook).
    simplify_eq. by exists o.
Qed.

End ForwardClaims.

(** ** [forward] on a store *)

Section StoreFacts.
Context {R : Type} `{Scalar R} {G : Type}.
Implicit Types (st : store R G) (L : list nat).
Local Open Scope list_scope.

Lemma keeps_refl L st : keeps L st st.
Proof. by intros l o _ Hl. Qed.

Lemma keeps_trans L st1 st2 st3 :
  keeps L st1 st2 -> keeps L st2 st3 -> keeps L st1 st3.
Proof. intros H12 H23 l o Hl Hlook. by apply H23, H12. Qed.

Lemma keeps_alloc L st o :
  keeps L st {| objects := objects st ++ [o]; generator := generator st |}.
Proof. intros l o' _ Hl. by apply lookup_app_l_Some. Qed.

Lemma keeps_append L st l o :
  l ∈ L ->
  keeps L st {| objects := <[l := o]> (objects st); generator := generator st |}.
Proof.
  intros Hin l' o' Hl' Hlook. simpl.
  rewrite list_lookup_insert_ne; [done|]. by intros ->.
Qed.

(** Objects allocated during the computation may be modified by it. *)
Lemma keeps_fresh L st o st' :
  keeps (length (objects st) :: L)
    {| objects := objects st ++ [o]; generator := generator st |} st' ->
  keeps L st st'.
Proof.
  intros Hkeep l o' Hl Hlook. apply Hkeep.
  - apply not_elem_of_cons. split; [|done].
    apply lookup_lt_Some in Hlook. lia.
  - by apply lookup_app_l_Some.
Qed.

Lemma lookup_alloc (h : list (object R)) o :
  (h ++ [o]) !! length h = Some o.
Proof. by apply list_lookup_middle. Qed.

Lemma bind_run {A B} (m : prog R G A) (f : A -> prog R G B) st a st' :
  m st = (Ok a, st') -> (m ≫= f) st = f a st'.
Proof. intros Hm. unfold mbind, prog_bind. by rewrite Hm. Qed.

Lemma bind_raise {A B} (m : prog R G A) (f : A -> prog R G B) st e st' :
  m st = (Err e, st') -> (m ≫= f) st = (Err e, st').
Proof. intros Hm. unfold mbind, prog_bind. by rewrite Hm. Qed.

Lemma get_vector_run st l v :
  objects st !! l = Some (OVector v) -> get_vector l st = (Ok v, st).
Proof. intros Hl. unfold get_vector. by rewrite Hl. Qed.

Lemma get_matrix_run st l M :
  objects st !! l = Some (OMatrix M) -> get_matrix l st = (Ok M, st).
Proof. intros Hl. unfold get_matrix. by rewrite Hl. Qed.

Lemma get_tensor_run st l X :
  objects st !! l = Some (OTensor X) -> get_tensor l st = (Ok X, st).
Proof. intros Hl. unfold get_tensor. by rewrite Hl. Qed.

Lemma get_list_run st l xs :
  objects st !! l = Some (OList xs) -> get_list l st = (Ok xs, st).
Proof. intros Hl. unfold get_list. by rewrite Hl. Qed.

Lemma get_matrices_run st ls Ms :
  Forall2 (fun l M => objects st !! l = Some (OMatrix M)) ls Ms ->
  get_matrices ls st = (Ok Ms, st).
Proof.
  induction 1 as [|l M ls Ms Hl _ IH]; [done|]. simpl.
  rewrite (bind_run _ _ _ _ _ (get_matrix_run _ _ _ Hl)).
  by rewrite (bind_run _ _ _ _ _ IH).
Qed.

(** *** Rules for [simulates] *)

Lemma simulates_bind {A A' B B'} L (m : prog R G A) (r : result B)
    (f : A -> prog R G A') (k : B -> result B') st Q Q' :
  simulates L m r st Q ->
  (forall a b st', keeps L st st' -> Q a b st' ->
     generator st' = generator st /\ simulates L (f a) (k b) st' Q') ->
  simulates L (m ≫= f) (r ≫= k) st Q'.
Proof.
  intros (st' & Hkeep & Hm) Hf. destruct r as [b|e].
  - destruct Hm as (a & Hm & HQ).
    destruct (Hf a b st' Hkeep HQ) as (Hg & st'' & Hkeep' & Hfa).
    exists st''. split; [by eapply keeps_trans|].
    cbn [mbind result_bind]. rewrite (bind_run _ _ _ _ _ Hm).
    destruct (k b); [done|]. destruct Hfa as [Hfa Hg']. split; congruence.
  - destruct Hm as [Hm Hg]. exists st'. split; [done|].
    cbn [mbind result_bind]. by rewrite (bind_raise _ _ _ _ _ Hm).
Qed.

(** A step that only the computation on the store has. *)
Lemma simulates_step {A A' B} L (m : prog R G A) (f : A -> prog R G A')
    (r : result B) st a st' Q :
  m st = (Ok a, st') -> keeps L st st' -> generator st' = generator st ->
  simulates L (f a) r st' Q ->
  simulates L (m ≫= f) r st Q.
Proof.
  intros Hm Hkeep Hg (st'' & Hkeep' & Hfa).
  exists st''. split; [by eapply keeps_trans|].
  rewrite (bind_run _ _ _ _ _ Hm).
  destruct r; [done|]. destruct Hfa as [Hfa Hg']. split; congruence.
Qed.

Lemma simulates_read {A A' B} L (m : prog R G A) (f : A -> prog R G A')
    (r : result B) st a Q :
  m st = (Ok a, st) -> simulates L (f a) r st Q ->
  simulates L (m ≫= f) r st Q.
Proof.
  intros Hm. by apply simulates_step; [|apply keeps_refl|].
Qed.

(** The new object is one that the rest of the computation may modify. *)
Lemma simulates_alloc {A B} L o (f : nat -> prog R G A) (r : result B) st Q :
  simulates (length (objects st) :: L) (f (length (objects st))) r
    {| objects := objects st ++ [o]; generator := generator st |} Q ->
  simulates L (alloc o ≫= f) r st Q.
Proof.
  intros (st'' & Hkeep & Hf).
  exists st''. split; [by eapply keeps_fresh|].
  by rewrite (bind_run (alloc o) f st _ _ eq_refl).
Qed.

Lemma simulates_weaken {A B} L (m : prog R G A) (r : result B) st
    (Q Q' : A -> B -> store R G -> Prop) :
  (forall a b st', Q a b st' -> Q' a b st') ->
  simulates L m r st Q -> simulates L m r st Q'.
Proof.
  intros HQ (st' & Hkeep & Hm). exists st'. split; [done|].
  destruct r as [b|e]; [|done]. destruct Hm as (a & Hm & Ha). eauto.
Qed.

Lemma simulates_new_tensor L (r : result (Tensor3 R)) st :
  simulates L (new_tensor r) r st (fun l X st' => added st (OTensor X) l st').
Proof.
  destruct r as [X|e].
  - eexists. split; [apply keeps_alloc|]. by eexists.
  - exists st. split; [apply keeps_refl|done].
Qed.

Lemma simulates_new_matrix L (r : result (Mat R)) st :
  simulates L (new_matrix r) r st (fun l M st' => added st (OMatrix M) l st').
Proof.
  destruct r as [M|e].
  - eexists. split; [apply keeps_alloc|]. by eexists.
  - exists st. split; [apply keeps_refl|done].
Qed.

(** *** The calls of [forward] *)

Lemma transpose_call_run st m M :
  objects st !! m = Some (OMatrix M) ->
  transpose_call m st =
  (Ok (length (objects st)),
   {| objects := objects st ++ [OMatrix (transpose M)];
      generator := generator st |}).
Proof.
  intros Hm. unfold transpose_call.
  by rewrite (bind_run _ _ _ _ _ (get_matrix_run _ _ _ Hm)).
Qed.

Lemma act_fn_call_run (self : LoreftIntervention R G) st x X :
  objects st !! x = Some (OTensor X) ->
  act_fn_call self x st =
  (Ok (length (objects st)),
   {| objects := objects st ++ [OTensor (tensor_map (act_fn self) X)];
      generator := generator st |}).
Proof.
  intros Hx. unfold act_fn_call.
  by rewrite (bind_run _ _ _ _ _ (get_tensor_run _ _ _ Hx)).
Qed.

Lemma append_run st l xs x :
  objects st !! l = Some (OList xs) ->
  append l x st =
  (Ok (), {| objects := <[l := OList (xs ++ [x])]> (objects st);
             generator := generator st |}).
Proof. intros Hl. unfold append. by rewrite Hl. Qed.

Lemma simulates_rotate_layer L (self : LoreftIntervention R G) p st x X :
  stored p self st -> objects st !! x = Some (OTensor X) ->
  simulates L (rotate_layer_call p x) (rotate_layer self X) st
    (fun l Y st' => added st (OTensor Y) l st').
Proof.
  intros (HW & _ & _) Hx. unfold rotate_layer_call, rotate_layer.
  eapply simulates_read; [by apply get_matrix_run|].
  eapply simulates_read; [by apply get_tensor_run|].
  apply simulates_new_tensor.
Qed.

Lemma simulates_learned_source L (self : LoreftIntervention R G) p st x X :
  stored p self st -> objects st !! x = Some (OTensor X) ->
  simulates L (learned_source_call p x) (learned_source self X) st
    (fun l Y st' => added st (OTensor Y) l st').
Proof.
  intros (_ & HW & Hs) Hx. unfold learned_source_call, learned_source.
  eapply simulates_read; [by apply get_matrix_run|].
  eapply simulates_read; [by apply get_vector_run|].
  eapply simulates_read; [by apply get_tensor_run|].
  apply simulates_new_tensor.
Qed.

Lemma simulates_sub L st x y (X Y : Tensor3 R) :
  objects st !! x = Some (OTensor X) -> objects st !! y = Some (OTensor Y) ->
  simulates L (sub_call x y) (tensor_sub X Y) st
    (fun l Z st' => added st (OTensor Z) l st').
Proof.
  intros Hx Hy. unfold sub_call.
  eapply simulates_read; [by apply get_tensor_run|].
  eapply simulates_read; [by apply get_tensor_run|].
  apply simulates_new_tensor.
Qed.

Lemma simulates_add L st x y (X Y : Tensor3 R) :
  objects st !! x = Some (OTensor X) -> objects st !! y = Some (OTensor Y) ->
  simulates L (add_call x y) (tensor_add X Y) st
    (fun l Z st' => added st (OTensor Z) l st').
Proof.
  intros Hx Hy. unfold add_call.
  eapply simulates_read; [by apply get_tensor_run|].
  eapply simulates_read; [by apply get_tensor_run|].
  apply simulates_new_tensor.
Qed.

Lemma simulates_bmm L st x y (X Y : Tensor3 R) :
  objects st !! x = Some (OTensor X) -> objects st !! y = Some (OTensor Y) ->
  simulates L (bmm_call x y) (bmm X Y) st
    (fun l Z st' => added st (OTensor Z) l st').
Proof.
  intros Hx Hy. unfold bmm_call.
  eapply simulates_read; [by apply get_tensor_run|].
  eapply simulates_read; [by apply get_tensor_run|].
  apply simulates_new_tensor.
Qed.

Lemma simulates_index_example L st x (X : Tensor3 R) i idx :
  objects st !! x = Some (OTensor X) ->
  simulates L (index_example_call x i idx) (index_example X i idx) st
    (fun l M st' => added st (OMatrix M) l st').
Proof.
  intros Hx. unfold index_example_call.
  eapply simulates_read; [by apply get_tensor_run|].
  apply simulates_new_matrix.
Qed.

Lemma simulates_index_columns L st w (W : Mat R) idx :
  objects st !! w = Some (OMatrix W) ->
  simulates L (index_columns_call w idx) (index_columns W idx) st
    (fun l M st' => added st (OMatrix M) l st').
Proof.
  intros Hw. unfold index_columns_call.
  eapply simulates_read; [by apply get_matrix_run|].
  apply simulates_new_matrix.
Qed.

Lemma simulates_stack L st l ls (Ms : list (Mat R)) :
  objects st !! l = Some (OList ls) ->
  Forall2 (fun l M => objects st !! l = Some (OMatrix M)) ls Ms ->
  simulates L (stack_call l) (stack Ms) st
    (fun l X st' => added st (OTensor X) l st').
Proof.
  intros Hl Hls. unfold stack_call.
  eapply simulates_read; [by apply get_list_run|].
  eapply simulates_read; [by apply get_matrices_run|].
  apply simulates_new_tensor.
Qed.

(** The dropout step, the last one: it alone touches the generator. *)
Lemma simulates_dropout L (self : LoreftIntervention R G) st x X :
  objects st !! x = Some (OTensor X) ->
  simulates L (dropout_call self x) (Ok (dropout self (generator st) X)) st
    (fun l Yg st' =>
       objects st' !! l = Some (OTensor Yg.1) /\ generator st' = Yg.2 /\
       (l = x \/ l = length (objects st)) /\
       keeps [] st st').
Proof.
  intros Hx. unfold dropout_call, dropout. destruct (training self).
  - destruct (dropout_train self (generator st) X) as [Y g'] eqn:HY.
    exists {| objects := objects st ++ [OTensor Y]; generator := g' |}.
    split; [apply keeps_alloc|].
    exists (length (objects st)). split.
    + rewrite (bind_run _ _ _ _ _ (get_tensor_run _ _ _ Hx)).
      unfold mbind, prog_bind, draw. by rewrite HY.
    + split; [apply lookup_alloc|]. split; [done|]. split; [by right|].
      apply keeps_alloc.
  - exists st. split; [apply keeps_refl|]. exists x.
    split; [done|]. split; [done|]. split; [done|]. split; [by left|].
    apply keeps_refl.
Qed.

Lemma fmap_bind_result {A B C} (f : A -> B) (r : result A) (k : B -> result C) :
  (f <$> r) ≫= k = r ≫= (fun a => k (f a)).
Proof. by destruct r. Qed.

(** The loop appends to the two lists the references of the matrices that
    [collect] returns. *)
Lemma simulates_loop p diff bs bw (Diff : Tensor3 R) (W : Mat R) subspaces :
  forall i st xs ys,
    bs <> bw ->
    objects st !! diff = Some (OTensor Diff) ->
    objects st !! rotate_layer_weight_at p = Some (OMatrix W) ->
    objects st !! bs = Some (OList xs) ->
    objects st !! bw = Some (OList ys) ->
    simulates [bw; bs] (loop p diff bs bw subspaces i)
      (collect Diff W subspaces i) st
      (fun _ LR st' =>
         generator st' = generator st /\
         exists ls rs,
           objects st' !! bs = Some (OList (xs ++ ls)) /\
           objects st' !! bw = Some (OList (ys ++ rs)) /\
           Forall2 (fun l M => objects st' !! l = Some (OMatrix M)) ls LR.1 /\
           Forall2 (fun l M => objects st' !! l = Some (OMatrix M)) rs LR.2).
Proof.
  induction subspaces as [|idx rest IH]; intros i st xs ys Hne Hdiff HW Hbs Hbw.
  { exists st. split; [apply keeps_refl|]. exists (). split; [done|].
    split; [done|]. exists [], []. rewrite !app_nil_r. by repeat split. }
  cbn [loop collect].
  pose proof (lookup_lt_Some _ _ _ Hdiff) as Hdiff_lt.
  pose proof (lookup_lt_Some _ _ _ HW) as HW_lt.
  pose proof (lookup_lt_Some _ _ _ Hbs) as Hbs_lt.
  pose proof (lookup_lt_Some _ _ _ Hbw) as Hbw_lt.
  assert (diff <> bs /\ diff <> bw /\
          rotate_layer_weight_at p <> bs /\ rotate_layer_weight_at p <> bw)
    as (Hd1 & Hd2 & Hw1 & Hw2) by (repeat split; congruence).
  eapply simulates_bind; [by apply simulates_index_example|].
  intros LHS M1 st1 _ [-> ->]. split; [done|]. rewrite fmap_bind_result.
  eapply simulates_bind;
    [apply simulates_index_columns; cbn [objects];
     by apply lookup_app_l_Some|].
  intros columns C st2 _ [-> ->]. split; [done|]. cbn [objects generator].
  eapply simulates_step.
  { apply transpose_call_run. cbn [objects]. apply lookup_alloc. }
  { apply keeps_alloc. }
  { done. }
  cbn [objects generator].
  eapply simulates_step.
  { apply append_run. cbn [objects]. by do 3 apply lookup_app_l_Some. }
  { apply keeps_append. set_solver. }
  { done. }
  cbn [objects generator].
  eapply simulates_step.
  { apply append_run. cbn [objects].
    rewrite list_lookup_insert_ne by done. by do 3 apply lookup_app_l_Some. }
  { apply keeps_append. set_solver. }
  { done. }
  cbn [objects generator].
  set (h := <[bw:=_]> (<[bs:=_]> _)).
  assert (length h = length (objects st) + 3) as Hlen.
  { unfold h. rewrite !length_insert, !length_app. simpl. lia. }
  assert (forall l o, l <> bs -> l <> bw -> l < length (objects st) + 3 ->
            (((objects st ++ [OMatrix M1]) ++ [OMatrix C]) ++
               [OMatrix (transpose C)]) !! l = Some o -> h !! l = Some o)
    as Hh.
  { intros l o Hl1 Hl2 _ Hl. unfold h.
    by rewrite !list_lookup_insert_ne by done. }
  destruct (IH (S i) {| objects := h; generator := generator st |}
              (xs ++ [length (objects st)])
              (ys ++ [length ((objects st ++ [OMatrix M1]) ++ [OMatrix C])]))
    as (st' & Hkeep & Hrest); cbn [objects].
  { done. }
  { apply Hh; [done|done|lia|]. by do 3 apply lookup_app_l_Some. }
  { apply Hh; [done|done|lia|]. by do 3 apply lookup_app_l_Some. }
  { unfold h. rewrite list_lookup_insert_ne by done.
    apply list_lookup_insert_eq. rewrite !length_app. simpl. lia. }
  { unfold h. apply list_lookup_insert_eq.
    rewrite length_insert, !length_app. simpl. lia. }
  exists st'. split; [done|].
  destruct (collect Diff W rest (S i)) as [[Ls Rs]|e]; [|done].
  destruct Hrest as ([] & Hrun & Hg & ls & rs & Hbs' & Hbw' & Hls & Hrs).
  exists (). split; [done|]. split; [done|].
  exists (length (objects st) :: ls),
         (length ((objects st ++ [OMatrix M1]) ++ [OMatrix C]) :: rs).
  rewrite <- !app_assoc in Hbs', Hbw'. split; [done|]. split; [done|].
  cbn [fst snd] in *. split; constructor; try done.
  - apply Hkeep; cbn [objects].
    + rewrite !not_elem_of_cons. repeat split; [lia|lia|apply not_elem_of_nil].
    + apply Hh; [lia|lia|lia|]. do 2 apply lookup_app_l_Some. apply lookup_alloc.
  - apply Hkeep; cbn [objects].
    + rewrite !not_elem_of_cons, !length_app. simpl.
      repeat split; [lia|lia|apply not_elem_of_nil].
    + apply Hh; [rewrite !length_app; simpl; lia..|]. apply lookup_alloc.
Qed.

Lemma Forall2_lookup_alloc (h : list (object R)) o ls (Ms : list (Mat R)) :
  Forall2 (fun l M => h !! l = Some (OMatrix M)) ls Ms ->
  Forall2 (fun l M => (h ++ [o]) !! l = Some (OMatrix M)) ls Ms.
Proof.
  intros Hls. eapply Forall2_impl; [exact Hls|].
  intros l M Hl. by apply lookup_app_l_Some.
Qed.

(** [forward_store] computes what [forward] computes, in a new tensor, and
    modifies no object that was there when it was called. *)
Lemma simulates_forward (self : LoreftIntervention R G) p base Base
    source src subspaces st :
  stored p self st -> objects st !! base = Some (OTensor Base) ->
  simulates [] (forward_store self p base source subspaces)
    (forward self (generator st) Base src subspaces) st
    (fun l Xg st' =>
       objects st' !! l = Some (OTensor Xg.1) /\ generator st' = Xg.2 /\
       objects st !! l = None).
Proof.
  intros Hp Hbase. destruct subspaces as [subspaces|]; cbn [forward_store forward].
  2:{ exists st. split; [apply keeps_refl|done]. }
  pose proof Hp as (HW & HV & Hs).
  pose proof (lookup_lt_Some _ _ _ Hbase) as Hbase_lt.
  eapply simulates_step; [reflexivity|apply keeps_alloc|done|].
  set (st0 := {| objects := objects st ++ [OList []] |}).
  assert (keeps [] st st0) as H0 by apply keeps_alloc.
  assert (stored p self st0) as Hp0.
  { by repeat split; apply lookup_app_l_Some. }
  assert (objects st0 !! base = Some (OTensor Base)) as Hbase0.
  { by apply lookup_app_l_Some. }
  assert (generator st0 = generator st) as Hg0 by done.
  assert (length (objects st) <= length (objects st0)) as Hlen0.
  { unfold st0. cbn [objects]. rewrite length_app. lia. }
  clearbody st0.
  eapply simulates_weaken with
    (Q := fun l Xg st' =>
            objects st' !! l = Some (OTensor Xg.1) /\ generator st' = Xg.2 /\
            objects st0 !! l = None).
  { intros l Xg st' (Hl & Hg & Hnone). repeat split; [done..|].
    destruct (objects st !! l) as [o|] eqn:Hlook; [|done].
    rewrite (H0 l o) in Hnone; [done|apply not_elem_of_nil|done]. }
  rewrite <- Hg0. clear dependent st. rename st0 into st.
  rename Hp0 into Hp, Hbase0 into Hbase.
  pose proof Hp as (HW & HV & Hs).
  eapply simulates_bind; [by apply simulates_rotate_layer|].
  intros rotated_base RB st1 _ [-> ->]. split; [done|].
  eapply simulates_bind;
    [apply simulates_learned_source;
     [by repeat split; apply lookup_app_l_Some|by apply lookup_app_l_Some]|].
  intros transformed T st2 _ [-> ->]. split; [done|]. cbn [objects generator].
  eapply simulates_step;
    [apply act_fn_call_run; cbn [objects]; apply lookup_alloc
    |apply keeps_alloc|done|].
  cbn [objects generator].
  eapply simulates_bind.
  { apply simulates_sub; cbn [objects].
    - apply lookup_alloc.
    - do 2 apply lookup_app_l_Some. apply lookup_alloc. }
  intros diff Diff st3 _ [-> ->]. split; [done|]. cbn [objects generator].
  set (h3 := ((objects st ++ [OTensor RB]) ++ [OTensor T]) ++
              [OTensor (tensor_map (act_fn self) T)]).
  set (d := length h3). set (h := h3 ++ [OTensor Diff]).
  assert (forall l o, objects st !! l = Some o -> h !! l = Some o) as Hh.
  { intros l o Hl. unfold h, h3. by do 4 apply lookup_app_l_Some. }
  assert (h !! d = Some (OTensor Diff)) as Hdiff by apply lookup_alloc.
  assert (length (objects st) < length h) as Hlen.
  { unfold h, h3. rewrite !length_app. simpl. lia. }
  clearbody h d. clear h3.
  apply simulates_alloc. cbn [objects generator].
  apply simulates_alloc. cbn [objects generator].
  set (bs := length h). set (bw := length (h ++ [OList []])).
  assert (bs = length h) as Hbs by done.
  assert (bw = S bs) as Hbw by (unfold bw, bs; rewrite length_app; simpl; lia).
  pose proof (lookup_lt_Some _ _ _ Hbase) as Hbase_lt.
  eapply simulates_bind.
  { apply (simulates_loop p d bs bw Diff (rotate_layer_weight self)
             subspaces 0 _ [] []); cbn [objects].
    - lia.
    - by do 2 apply lookup_app_l_Some.
    - do 2 apply lookup_app_l_Some. by apply Hh.
    - apply lookup_app_l_Some, lookup_alloc.
    - apply lookup_alloc. }
  intros [] [Ls Rs] st4 Hkeep4 (Hg4 & ls & rs & Hbs4 & Hbw4 & Hls & Hrs).
  split; [done|]. cbn [fst snd app generator] in *.
  assert (objects st4 !! base = Some (OTensor Base)) as Hbase4.
  { apply Hkeep4; cbn [objects].
    - rewrite !not_elem_of_cons. fold bs.
      repeat split; [lia|lia|apply not_elem_of_nil].
    - do 2 apply lookup_app_l_Some. by apply Hh. }
  eapply simulates_bind; [by apply (simulates_stack _ _ bs ls Ls)|].
  intros batched_subspace BS st5 _ [-> ->]. split; [done|].
  eapply simulates_bind.
  { apply (simulates_stack _ _ bw rs Rs); cbn [objects].
    - by apply lookup_app_l_Some.
    - by apply Forall2_lookup_alloc. }
  intros batched_weights BW st6 _ [-> ->]. split; [done|].
  cbn [objects generator].
  eapply simulates_bind.
  { apply simulates_bmm; cbn [objects].
    - apply lookup_app_l_Some, lookup_alloc.
    - apply lookup_alloc. }
  intros correction Cn st7 _ [-> ->]. split; [done|]. cbn [objects generator].
  eapply simulates_bind.
  { apply simulates_add; cbn [objects].
    - by do 3 apply lookup_app_l_Some.
    - apply lookup_alloc. }
  intros output O st8 _ [-> ->]. split; [done|]. cbn [objects generator].
  rewrite <- Hg4.
  set (h8 := ((objects st4 ++ _) ++ _) ++ [OTensor Cn]).
  eapply simulates_weaken;
    [|apply (simulates_dropout _ self
               {| objects := h8 ++ [OTensor O]; generator := generator st4 |}
               (length h8) O), lookup_alloc].
  intros l Xg st' (Hl & Hg & Hfresh & _). cbn [objects] in Hfresh.
  split; [done|]. split; [done|].
  destruct (objects st !! l) as [o|] eqn:Hlook; [exfalso|done].
  assert (objects st4 !! l = Some o) as Hl4.
  { pose proof (lookup_lt_Some _ _ _ Hlook).
    apply Hkeep4; cbn [objects].
    - rewrite !not_elem_of_cons. fold bs.
      repeat split; [lia|lia|apply not_elem_of_nil].
    - do 2 apply lookup_app_l_Some. by apply Hh. }
  apply lookup_lt_Some in Hl4.
  assert (length h8 = length (objects st4) + 3) as Hlen8.
  { unfold h8. rewrite !length_app. simpl. lia. }
  rewrite length_app in Hfresh. simpl in Hfresh. lia.
Qed.

Lemma forward_store_spec (self : LoreftIntervention R G) p base_at base
    source src subspaces st res st' :
  stored p self st -> objects st !! base_at = Some (OTensor base) ->
  forward_store self p base_at source subspaces st = (res, st') ->
  keeps [] st st' /\
  (forall l, res = Ok l -> objects st !! l = None) /\
  load st' res = fst <$> forward self (generator st) base src subspaces /\
  generator st' =
    match forward self (generator st) base src subspaces with
    | Ok (_, g') => g'
    | Err _ => generator st
    end.
Proof.
  intros Hp Hbase Hrun.
  destruct (simulates_forward self p base_at base source src subspaces st
              Hp Hbase) as (st'' & Hkeep & Hsim).
  destruct (forward self (generator st) base src subspaces) as [[X g']|e].
  - destruct Hsim as (l & Hrun' & Hl & Hg & Hfresh).
    rewrite Hrun in Hrun'. injection Hrun' as -> ->.
    split; [done|]. split; [by intros ? [= ->]|]. split; [|done].
    cbn [load mbind result_bind fmap result_fmap fst] in *. by rewrite Hl.
  - destruct Hsim as [Hrun' Hg]. rewrite Hrun in Hrun'.
    injection Hrun' as -> ->. by repeat split.
Qed.

(** Without random draws [forward] is a function of [base], [subspaces]
    and the module. *)
Lemma forward_deterministic (self : LoreftIntervention R G) (f : Tensor3 R -> Tensor3 R)
    (g : G) base src subspaces :
  (forall g x, dropout self g x = (f x, g)) ->
  forward self g base src subspaces =
  (fun output => (f output, g)) <$>
    match subspaces with
    | None => Err AssertionError
    | Some s => gated_output self base s
    end.
Proof.
  intros Hf. destruct subspaces as [s|]; [|done].
  rewrite forward_gated. destruct (gated_output self base s); [|done].
  cbn [mbind result_bind fmap result_fmap]. by rewrite Hf.
Qed.

(** C7, amended. [forward] modifies no object that exists when it is
    called: the learned rotation, the learned source transformation and the
    tensor [base] are after the call what they were before, whether the
    call returns or raises, and the tensor it returns is a new object.  The
    call computes what [forward] computes from the generator state it finds.
    Whenever the dropout step draws no random numbers (in evaluation mode,
    and while training with dropout probability 0) [forward] is a function
    of [base], [subspaces] and the module only; the call leaves the
    generator as it was, and a second call returns the same tensor or
    raises the same exception. *)
Theorem forward_pure (self : LoreftIntervention R G) p base_at base source
    subspaces (st st' : store R G) (res : result nat) :
  stored p self st ->
  objects st !! base_at = Some (OTensor base) ->
  forward_store self p base_at source subspaces st = (res, st') ->
  (forall l o, objects st !! l = Some o -> objects st' !! l = Some o) /\
  (stored p self st' /\ objects st' !! base_at = Some (OTensor base)) /\
  (forall l, res = Ok l -> objects st !! l = None) /\
  (forall src,
     load st' res = fst <$> forward self (generator st) base src subspaces /\
     generator st' =
       match forward self (generator st) base src subspaces with
       | Ok (_, g') => g'
       | Err _ => generator st
       end) /\
  (forall f : Tensor3 R -> Tensor3 R,
     (forall g x, dropout self g x = (f x, g)) ->
     (forall g src,
        forward self g base src subspaces =
        (fun output => (f output, g)) <$>
          match subspaces with
          | None => Err AssertionError
          | Some s => gated_output self base s
          end) /\
     generator st' = generator st /\
     forall source2 res2 st2,
       forward_store self p base_at source2 subspaces st' = (res2, st2) ->
       load st2 res2 = load st' res).
Proof.
  intros Hp Hbase Hrun.
  destruct (forward_store_spec self p base_at base source None subspaces
              st res st' Hp Hbase Hrun) as (Hkeep & Hfresh & _).
  assert (forall l o, objects st !! l = Some o -> objects st' !! l = Some o)
    as Hframe.
  { intros l o. apply Hkeep, not_elem_of_nil. }
  assert (stored p self st') as Hp'.
  { destruct Hp as (HW & HV & Hs). repeat split; by apply Hframe. }
  split; [done|]. split; [by split; [|apply Hframe]|]. split; [done|].
  split.
  { intros src.
    by destruct (forward_store_spec self p base_at base source src subspaces
                   st res st' Hp Hbase Hrun) as (_ & _ & Hload & Hg). }
  intros f Hf. split; [intros g src; by apply forward_deterministic|].
  destruct (forward_store_spec self p base_at base source None subspaces
              st res st' Hp Hbase Hrun) as (_ & _ & Hload & Hg).
  rewrite (forward_deterministic self f _ base None subspaces Hf) in Hload, Hg.
  assert (generator st' = generator st) as Hgen.
  { rewrite Hg. by destruct subspaces as [s|]; [destruct (gated_output _ _ _)|]. }
  split; [done|]. intros source2 res2 st2 Hrun2.
  destruct (forward_store_spec self p base_at base source2 None subspaces
              st' res2 st2 Hp' (Hframe _ _ Hbase) Hrun2) as (_ & _ & Hload2 & _).
  rewrite (forward_deterministic self f _ base None subspaces Hf) in Hload2.
  rewrite Hload, Hload2.
  by destruct subspaces as [s|]; [destruct (gated_output _ _ _)|].
Qed.

End StoreFacts.

(** ** The claims about the preprocessing *)

Section PreprocessClaims.
Variable py_int : value -> result Z.
Variable eos_token : string.

Lemma py_index_last (l : list value) :
  l <> [] -> py_index (VList l) (-1) = (match last l with
                                       | Some v => Ok v
                                       | None => Err IndexError
                                       end).
Proof.
  intros Hl. unfold py_index.
  rewrite decide_False by lia.
  assert (0 < length l) by (destruct l; [done|simpl; lia]).
  rewrite decide_True by lia. cbn [mbind option_bind].
  rewrite last_lookup.
  replace (Z.to_nat (-1 + Z.of_nat (length l))) with (Nat.pred (length l)) by lia.
  done.
Qed.

Lemma py_index_in_range (l : list value) (i : Z) :
  (0 <= i < Z.of_nat (length l))%Z ->
  py_index (VList l) i = (match l !! Z.to_nat i with
                          | Some v => Ok v
                          | None => Err IndexError
                          end).
Proof. intros Hi. unfold py_index. by rewrite decide_True. Qed.

Lemma preprocess_hellaswag_Ok (examples examples' : gmap string value) :
  preprocess_hellaswag_de_for_reft py_int examples = Ok examples' ->
  exists lab label endings n output ctx,
    examples !! "label" = Some lab /\ py_int lab = Ok label /\
    examples !! "endings_de" = Some endings /\ py_len endings = Ok n /\
    py_index endings (if decide (n < 4) then (-1)%Z else label) = Ok output /\
    examples !! "ctx" = Some ctx /\
    examples' = <["subspaces" := int_list HELLASWAG_SUBSPACE]>
                  (<["output" := output]> (<["instruction" := ctx]> examples)).
Proof.
  unfold preprocess_hellaswag_de_for_reft, getitem. intros Hp.
  destruct (examples !! "label") as [lab|]; [|discriminate].
  cbn [mbind result_bind] in Hp.
  destruct (py_int lab) as [label|] eqn:Hlabel; [|discriminate].
  cbn [mbind result_bind] in Hp.
  destruct (examples !! "endings_de") as [endings|]; [|discriminate].
  cbn [mbind result_bind] in Hp.
  destruct (py_len endings) as [n|] eqn:Hn; [|discriminate].
  cbn [mbind result_bind] in Hp.
  destruct (examples !! "ctx") as [ctx|].
  - exists lab, label, endings, n.
    destruct (decide (n < 4)); cbn [mbind result_bind] in Hp;
      destruct (py_index endings _) as [output|] eqn:Hout; try discriminate;
      cbn [mbind result_bind] in Hp; injection Hp as <-;
      by exists output, ctx.
  - destruct (decide (n < 4)); cbn [mbind result_bind] in Hp;
      destruct (py_index endings _); discriminate.
Qed.

Lemma preprocess_hellaswag_run (examples : gmap string value)
    (lab ctx output : value) (label : Z) (endings : list value) :
  examples !! "label" = Some lab -> py_int lab = Ok label ->
  examples !! "endings_de" = Some (VList endings) ->
  examples !! "ctx" = Some ctx ->
  py_index (VList endings) (if decide (length endings < 4) then (-1)%Z else label)
    = Ok output ->
  preprocess_hellaswag_de_for_reft py_int examples =
  Ok (<["subspaces" := int_list HELLASWAG_SUBSPACE]>
        (<["output" := output]> (<["instruction" := ctx]> examples))).
Proof.
  intros Hlab Hlabel Hend Hctx Hout.
  unfold preprocess_hellaswag_de_for_reft, getitem.
  rewrite Hlab. cbn [mbind result_bind]. rewrite Hlabel, Hend.
  cbn [mbind result_bind py_len]. rewrite Hctx.
  destruct (decide (length endings < 4)); cbn [mbind result_bind];
    by rewrite Hout.
Qed.

(** C8. Every example that the preprocessing produces carries a [subspaces]
    field: [[0, 1, 2, 3]] for the German sentence completions, [[4, 5, 6, 7]]
    for the instruction-following examples.  All of these are column indices
    of the rank-8 rotation, and the two tags are disjoint. *)
Theorem preprocess_subspaces_tags :
  (forall examples examples',
     preprocess_hellaswag_de_for_reft py_int examples = Ok examples' ->
     examples' !! "subspaces" = Some (int_list [0; 1; 2; 3]%Z)) /\
  (forall examples examples',
     preprocess_ultrafeedback_for_reft eos_token examples = Ok examples' ->
     examples' !! "subspaces" = Some (int_list [4; 5; 6; 7]%Z)) /\
  Forall (valid_index 8) (HELLASWAG_SUBSPACE ++ INSTRUCT_SUBSPACE) /\
  (forall j, j ∈ HELLASWAG_SUBSPACE -> j ∉ INSTRUCT_SUBSPACE).
Proof.
  split; [|split; [|split]].
  - intros examples examples' Hp.
    apply preprocess_hellaswag_Ok in Hp as (? & ? & ? & ? & ? & ? & _ & _ & _ & _ & _ & _ & ->).
    apply lookup_insert_eq.
  - intros examples examples'. unfold preprocess_ultrafeedback_for_reft.
    intros Hp. apply bind_Ok in Hp as (o & _ & Hp).
    apply bind_Ok in Hp as (o' & _ & [= <-]).
    rewrite lookup_insert_ne by done. apply lookup_insert_eq.
  - repeat constructor; unfold valid_index; simpl; lia.
  - apply Forall_forall. unfold HELLASWAG_SUBSPACE, INSTRUCT_SUBSPACE.
    repeat constructor; rewrite !not_elem_of_cons; repeat split; try lia;
      apply not_elem_of_nil.
Qed.

(** C9. On an example with fewer than 4 (and at least one) German endings
    the output is the last ending, whatever the label is; on an example with
    4 or more endings it is the ending at the position given by the label. *)
Theorem preprocess_hellaswag_output (examples : gmap string value)
    (lab ctx : value) (label : Z) (endings : list value) :
  examples !! "label" = Some lab -> py_int lab = Ok label ->
  examples !! "endings_de" = Some (VList endings) ->
  examples !! "ctx" = Some ctx ->
  (length endings < 4 -> endings <> [] ->
   exists examples',
     preprocess_hellaswag_de_for_reft py_int examples = Ok examples' /\
     examples' !! "output" = last endings) /\
  (4 <= length endings -> (0 <= label < Z.of_nat (length endings))%Z ->
   exists examples',
     preprocess_hellaswag_de_for_reft py_int examples = Ok examples' /\
     examples' !! "output" = endings !! Z.to_nat label).
Proof.
  intros Hlab Hlabel Hend Hctx. split.
  - intros Hlt Hne.
    destruct (last endings) as [v|] eqn:Hlast.
    2:{ apply last_None in Hlast. done. }
    eexists. split.
    + apply (preprocess_hellaswag_run _ lab ctx v label endings); try done.
      rewrite decide_True by done. by rewrite py_index_last, Hlast.
    + rewrite lookup_insert_ne by done. apply lookup_insert_eq.
  - intros Hge Hrange.
    destruct (lookup_lt_is_Some_2 endings (Z.to_nat label)) as [v Hv]; [lia|].
    eexists. split.
    + apply (preprocess_hellaswag_run _ lab ctx v label endings); try done.
      rewrite decide_False by lia. by rewrite py_index_in_range, Hv.
    + rewrite lookup_insert_ne by done. by rewrite lookup_insert_eq.
Qed.

Lemma py_index_elem_of (l : list value) (i : Z) (v : value) :
  py_index (VList l) i = Ok v -> v ∈ l.
Proof.
  unfold py_index. intros Hi.
  repeat case_decide; cbn [mbind option_bind] in Hi; try discriminate;
    destruct (l !! _) as [x|] eqn:Hx; simplify_eq/=;
    by eapply list_elem_of_lookup_2.
Qed.

(** C10. The instruction-following preprocessing appends the end-of-sequence
    token of the tokenizer to the output; the German-completion preprocessing
    sets the output to one of the endings as it is, with nothing appended. *)
Theorem preprocess_eos_token :
  (forall (examples : gmap string value) (o : string),
     examples !! "output" = Some (VStr o) ->
     exists examples',
       preprocess_ultrafeedback_for_reft eos_token examples = Ok examples' /\
       examples' !! "output" = Some (VStr (o +:+ eos_token))) /\
  (forall (examples examples' : gmap string value) (endings : list value),
     examples !! "endings_de" = Some (VList endings) ->
     preprocess_hellaswag_de_for_reft py_int examples = Ok examples' ->
     exists v, examples' !! "output" = Some v /\ v ∈ endings).
Proof.
  split.
  - intros examples o Ho. eexists. split.
    + unfold preprocess_ultrafeedback_for_reft, getitem.
      rewrite lookup_insert_ne by done. rewrite Ho. reflexivity.
    + apply lookup_insert_eq.
  - intros examples examples' endings Hend Hp.
    apply preprocess_hellaswag_Ok in Hp
      as (lab & label & e & n & output & ctx & _ & _ & He & _ & Hout & _ & ->).
    rewrite Hend in He. injection He as <-.
    exists output. split.
    + rewrite lookup_insert_ne by done. apply lookup_insert_eq.
    + by eapply py_index_elem_of.
Qed.

End PreprocessClaims.


(** ** Further properties of [SubloreftIntervention.forward] *)

Section ForwardExtras.
Context {R : Type} `{Scalar R} {G : Type}.
Implicit Types (self : LoreftIntervention R G) (base : Tensor3 R).
Add Ring scalar_ring_extras : scalar_ring.

Lemma norm_index_cases (n : nat) (j : Z) :
  (in_range n j /\ exists k, norm_index n j = Ok k /\ k < n) \/
  (~ in_range n j /\ norm_index n j = Err IndexError).
Proof.
  unfold norm_index, in_range. repeat case_decide.
  - left. split; [lia|]. eexists. split; [done|lia].
  - left. split; [lia|]. eexists. split; [done|lia].
  - right. split; [lia|done].
Qed.

Lemma try_all_norm_cases (n : nat) (idx : list Z) :
  (Forall (in_range n) idx /\ exists js, try_all (norm_index n) idx = Ok js) \/
  (~ Forall (in_range n) idx /\ try_all (norm_index n) idx = Err IndexError).
Proof.
  induction idx as [|j idx IH]; simpl.
  - left. split; [constructor|by eexists].
  - destruct (norm_index_cases n j) as [(Hj & k & -> & _)|(Hj & ->)]; simpl.
    + destruct IH as [(Hidx & js & ->)|(Hidx & ->)]; simpl.
      * left. split; [by constructor|by eexists].
      * right. split; [|done]. by intros [_ ?]%Forall_cons.
    + right. split; [|done]. by intros [? _]%Forall_cons.
Qed.

Lemma selected_cases self (subspaces : list (list Z)) :
  (Forall (Forall (in_range (low_rank_dimension self))) subspaces /\
   exists jss, selected self subspaces = Ok jss) \/
  (~ Forall (Forall (in_range (low_rank_dimension self))) subspaces /\
   selected self subspaces = Err IndexError).
Proof.
  unfold selected. induction subspaces as [|idx rest IH]; simpl.
  - left. split; [constructor|by eexists].
  - destruct (try_all_norm_cases (low_rank_dimension self) idx)
      as [(Hidx & js & ->)|(Hidx & ->)]; simpl.
    + destruct IH as [(Hrest & jss & ->)|(Hrest & ->)]; simpl.
      * left. split; [by constructor|by eexists].
      * right. split; [|done]. by intros [_ ?]%Forall_cons.
    + right. split; [|done]. by intros [? _]%Forall_cons.
Qed.

Lemma collect_cases (diff : Tensor3 R) (W : Mat R) (subspaces : list (list Z))
    (i0 : nat) :
  (exists LR, collect diff W subspaces i0 = Ok LR) \/
  collect diff W subspaces i0 = Err IndexError.
Proof.
  revert i0. induction subspaces as [|idx rest IH]; intros i0; simpl.
  - left. by eexists.
  - unfold index_example, index_columns.
    destruct (mats diff !! i0) as [M|]; [|by right].
    destruct (try_all_norm_cases (feat diff) idx) as [(_ & js & ->)|(_ & ->)];
      [|by right].
    simpl.
    destruct (try_all_norm_cases (cols W) idx) as [(_ & js' & ->)|(_ & ->)];
      [|by right].
    simpl. destruct (IH (S i0)) as [([Ls Rs] & ->)| ->]; simpl.
    + left. by eexists.
    + by right.
Qed.

(** [forward] up to its last line, as a function of the selected
    coordinates. *)
Lemma gated_output_eq self base subspaces :
  wf_module self -> wf_tensor base ->
  gated_output self base subspaces =
  if decide (feat base = embed_dim self) then
    match selected self subspaces with
    | Ok jss =>
        if decide (length subspaces <= length (mats base)) then combine self base jss
        else Err IndexError
    | Err _ => Err IndexError
    end
  else Err RuntimeError.
Proof.
  intros Hself Hbase. unfold gated_output.
  rewrite residual_spec by done.
  case_decide as Hfeat; [|reflexivity]. cbn [mbind result_bind].
  pose proof Hself as (_ & _ & Hr & _).
  set (diff := rows_map (residual_row self) (low_rank_dimension self) base).
  assert (Hfd : feat diff = cols (rotate_layer_weight self)) by (by rewrite Hr).
  assert (Hlen : length (mats diff) - 0 = length (mats base)).
  { subst diff. cbn [rows_map mats]. by rewrite length_fmap, Nat.sub_0_r. }
  destruct (selected self subspaces) as [jss|e] eqn:Hsel.
  - apply try_all_Ok in Hsel.
    case_decide as Hle.
    + assert (Hc : collect diff (rotate_layer_weight self) subspaces 0 =
                 Ok (zip_with (fun M js => select js M)
                       (map (map (residual_row self)) (mats base)) jss,
                     map (fun js => transpose (select js (rows (rotate_layer_weight self))))
                       jss)).
      { apply collect_Ok; [done|]. exists jss. rewrite Hr.
        split; [done|]. split; [lia|done]. }
      rewrite Hc. cbn [mbind result_bind].
      rewrite tail_spec; [reflexivity|done..|].
      by rewrite <- (Forall2_length _ _ _ Hsel).
    + destruct (collect_cases diff (rotate_layer_weight self) subspaces 0)
        as [([Ls Rs] & Hc)| ->]; [|done].
      apply collect_Ok in Hc as (jss' & _ & Hlen' & _); [|done]. lia.
  - destruct (collect_cases diff (rotate_layer_weight self) subspaces 0)
      as [([Ls Rs] & Hc)| ->]; [|done].
    apply collect_Ok in Hc as (jss' & Hjss' & _); [|done].
    rewrite Hr in Hjss'. apply try_all_Ok in Hjss'.
    unfold selected in Hsel. congruence.
Qed.

Lemma forward_Err self (g : G) base source subspaces (e : exn) :
  gated_output self base subspaces = Err e ->
  forward self g base source (Some subspaces) = Err e.
Proof. intros He. by rewrite forward_gated, He. Qed.

Lemma selected_lengths self (subspaces : list (list Z)) (jss : list (list nat)) :
  selected self subspaces = Ok jss ->
  Forall2 (fun idx js => length js = length idx) subspaces jss.
Proof.
  intros Hsel%try_all_Ok. eapply Forall2_impl; [exact Hsel|].
  intros idx js Hjs%try_all_Ok. symmetry. by eapply Forall2_length.
Qed.

Lemma same_length_transfer {A B} (l : list (list A)) (l' : list (list B)) (k : nat) :
  Forall2 (fun a b => length b = length a) l l' ->
  Forall (fun b => length b = k) l' <-> Forall (fun a => length a = k) l.
Proof.
  induction 1 as [|a b l l' Hab _ IH]; [split; constructor|].
  rewrite !Forall_cons, IH, Hab. done.
Qed.

Lemma broadcast_dim_Ok_iff (a b : nat) :
  1 <= b <= a -> (exists n, broadcast_dim a b = Ok n) <-> (b = a \/ b = 1).
Proof.
  intros Hb. unfold broadcast_dim. split.
  - intros [n Hn]. repeat case_decide; simplify_eq; lia.
  - intros [->| ->]; repeat case_decide; eauto; lia.
Qed.

(** X2. A batch whose vectors do not have [embed_dim] entries makes
    [forward] raise a runtime error, whatever the index lists are. *)
Theorem forward_wrong_feature_size self (g : G) base source subspaces :
  wf_module self -> wf_tensor base -> feat base <> embed_dim self ->
  forward self g base source (Some subspaces) = Err RuntimeError.
Proof.
  intros Hself Hbase Hfeat. apply forward_Err.
  rewrite gated_output_eq by done. by rewrite decide_False.
Qed.

(** X3. If some index list holds an index [j] outside [-r, r), where [r] is
    the rank, [forward] raises an index error, whatever the other lists
    are. *)
Theorem forward_index_out_of_range self (g : G) base source subspaces :
  wf_module self -> wf_tensor base -> feat base = embed_dim self ->
  Exists (Exists (fun j => ~ in_range (low_rank_dimension self) j)) subspaces ->
  forward self g base source (Some subspaces) = Err IndexError.
Proof.
  intros Hself Hbase Hfeat Hbad. apply forward_Err.
  rewrite gated_output_eq by done. rewrite decide_True by done.
  destruct (selected_cases self subspaces) as [(Hall & _)|(_ & ->)]; [|done].
  exfalso. apply Exists_exists in Hbad as (idx & Hidx & Hbad).
  apply Exists_exists in Hbad as (j & Hj & Hbad).
  rewrite Forall_forall in Hall. specialize (Hall idx Hidx).
  rewrite Forall_forall in Hall. by apply Hbad, Hall.
Qed.

(** X4. With more index lists than the batch has examples [forward] raises
    an index error. *)
Theorem forward_more_lists_than_examples self (g : G) base source subspaces :
  wf_module self -> wf_tensor base -> feat base = embed_dim self ->
  length (mats base) < length subspaces ->
  forward self g base source (Some subspaces) = Err IndexError.
Proof.
  intros Hself Hbase Hfeat Hlen. apply forward_Err.
  rewrite gated_output_eq by done. rewrite decide_True by done.
  destruct (selected self subspaces); [|done].
  rewrite decide_False by lia. done.
Qed.

(** X5. Index lists that are all in range but not all of the same length
    make [forward] raise a runtime error, at [torch.stack]. *)
Theorem forward_ragged_lists self (g : G) base source subspaces :
  wf_module self -> wf_tensor base -> feat base = embed_dim self ->
  Forall (Forall (in_range (low_rank_dimension self))) subspaces ->
  length subspaces <= length (mats base) ->
  ~ (exists k, Forall (fun idx => length idx = k) subspaces) ->
  forward self g base source (Some subspaces) = Err RuntimeError.
Proof.
  intros Hself Hbase Hfeat Hall Hlen Hragged. apply forward_Err.
  rewrite gated_output_eq by done. rewrite decide_True by done.
  destruct (selected_cases self subspaces) as [(_ & jss & Hsel)|(Hbad & _)];
    [|done].
  rewrite Hsel, decide_True by done.
  unfold combine. destruct jss as [|js0 jss]; [done|].
  rewrite decide_False; [done|]. intros Hk. apply Hragged.
  exists (length js0). apply selected_lengths in Hsel.
  by apply (same_length_transfer _ _ _ Hsel).
Qed.

(** X6. With an empty list of index lists [forward] raises a runtime error:
    there is nothing to stack. *)
Theorem forward_no_lists self (g : G) base source :
  wf_module self -> wf_tensor base ->
  forward self g base source (Some []) = Err RuntimeError.
Proof.
  intros Hself Hbase. apply forward_Err.
  rewrite gated_output_eq by done. by case_decide.
Qed.

(** X1. The calls of [forward] that return are exactly those in which the
    vectors of the batch have [embed_dim] entries, every index is in
    [-r, r), the index lists have one common length, and there is either
    one list per example or a single list for a batch that is not empty. *)
Theorem forward_returns_iff self (g : G) base source subspaces :
  wf_module self -> wf_tensor base ->
  (exists r, forward self g base source (Some subspaces) = Ok r) <->
  feat base = embed_dim self /\
  Forall (Forall (in_range (low_rank_dimension self))) subspaces /\
  (exists k, Forall (fun idx => length idx = k) subspaces) /\
  1 <= length subspaces <= length (mats base) /\
  (length subspaces = length (mats base) \/ length subspaces = 1).
Proof.
  intros Hself Hbase. rewrite forward_gated, gated_output_eq by done.
  split.
  - intros [r Hr]. case_decide as Hfeat; [|discriminate]. split; [done|].
    destruct (selected_cases self subspaces) as [(Hall & jss & Hsel)|(_ & Hsel)];
      rewrite Hsel in Hr; [|discriminate].
    split; [done|]. case_decide as Hlen; [|discriminate].
    pose proof (selected_lengths _ _ _ Hsel) as Hlens.
    pose proof (Forall2_length _ _ _ Hlens) as Hl.
    unfold combine in Hr. destruct jss as [|js0 jss]; [discriminate|].
    case_decide as Hk; [|discriminate].
    destruct (broadcast_dim _ _) as [b|] eqn:Hb; [|discriminate].
    assert (Hpos : 1 <= length subspaces) by (rewrite Hl; simpl; lia).
    split.
    { exists (length js0). by apply (same_length_transfer _ _ _ Hlens). }
    split; [lia|]. rewrite <- Hl in Hb.
    apply (broadcast_dim_Ok_iff (length (mats base)) (length subspaces)); [lia|].
    by exists b.
  - intros (Hfeat & Hall & [k Hk] & Hlen & Hb).
    rewrite decide_True by done.
    destruct (selected_cases self subspaces) as [(_ & jss & Hsel)|(Hbad & _)];
      [|done].
    rewrite Hsel, decide_True by lia.
    pose proof (selected_lengths _ _ _ Hsel) as Hlens.
    pose proof (Forall2_length _ _ _ Hlens) as Hl.
    unfold combine. destruct jss as [|js0 jss]; [simpl in Hl; lia|].
    rewrite decide_True.
    2:{ assert (Hjk : Forall (fun js => length js = k) (js0 :: jss))
          by (by apply (same_length_transfer _ _ _ Hlens)).
        apply Forall_cons in Hjk as Hjk'. destruct Hjk' as [<- _]. done. }
    rewrite <- Hl.
    apply (broadcast_dim_Ok_iff (length (mats base)) (length subspaces)) in Hb
      as [b ->]; [|lia].
    simpl. by eexists.
Qed.

Lemma norm_index_in_range (r : nat) (j : Z) :
  in_range r j -> norm_index r j = Ok (coordinate r j).
Proof.
  unfold in_range, norm_index, coordinate, wrap_index. intros Hj.
  repeat case_decide; try done; lia.
Qed.

Lemma try_all_norm_in_range (r : nat) (idx : list Z) :
  Forall (in_range r) idx ->
  try_all (norm_index r) idx = Ok (map (coordinate r) idx).
Proof.
  induction 1 as [|j idx Hj _ IH]; [done|].
  simpl. rewrite (norm_index_in_range r j Hj). simpl. by rewrite IH.
Qed.

Lemma selected_in_range self (subspaces : list (list Z)) :
  Forall (Forall (in_range (low_rank_dimension self))) subspaces ->
  selected self subspaces =
  Ok (map (map (coordinate (low_rank_dimension self))) subspaces).
Proof.
  unfold selected. induction 1 as [|idx rest Hidx _ IH]; [done|].
  simpl. rewrite (try_all_norm_in_range _ idx Hidx). simpl. by rewrite IH.
Qed.

Lemma in_range_wrap (r : nat) (j : Z) :
  in_range r j -> in_range r (wrap_index r j) /\
                  coordinate r (wrap_index r j) = coordinate r j.
Proof.
  unfold in_range, coordinate, wrap_index. intros Hj.
  repeat case_decide; split; try done; lia.
Qed.

(** X7. A negative index counts from the end: replacing every index [j < 0]
    by [j + r] in lists whose indices are in [-r, r) does not change the
    result of [forward]. *)
Theorem forward_negative_indices self (g : G) base source subspaces :
  wf_module self -> wf_tensor base ->
  Forall (Forall (in_range (low_rank_dimension self))) subspaces ->
  forward self g base source
    (Some (map (map (wrap_index (low_rank_dimension self))) subspaces)) =
  forward self g base source (Some subspaces).
Proof.
  intros Hself Hbase Hall. rewrite !forward_gated, !gated_output_eq by done.
  rewrite !selected_in_range, length_fmap; [|done|].
  - rewrite <- list_fmap_compose.
    rewrite (Forall_fmap_ext_1
               (map (coordinate (low_rank_dimension self))
                ∘ map (wrap_index (low_rank_dimension self)))
               (map (coordinate (low_rank_dimension self))) subspaces); [done|].
    eapply Forall_impl; [exact Hall|]. intros idx Hidx. simpl.
    rewrite <- list_fmap_compose. apply Forall_fmap_ext_1.
    eapply Forall_impl; [exact Hidx|]. intros j Hj. simpl.
    by apply in_range_wrap.
  - apply Forall_fmap. eapply Forall_impl; [exact Hall|]. intros idx Hidx.
    simpl. apply Forall_fmap. eapply Forall_impl; [exact Hidx|].
    intros j Hj. simpl. by apply in_range_wrap.
Qed.

Lemma wf_add_rows (d : nat) (M c : list (list R)) :
  wf_rows d M -> wf_rows d c -> wf_rows d (zip_with (zip_with sadd) M c).
Proof.
  intros HM. revert c. induction HM as [|x M Hx _ IH]; intros [|y c] Hc;
    csimpl; try constructor.
  - apply Forall_cons in Hc as [Hy _]. rewrite length_zip_with. lia.
  - apply Forall_cons in Hc as [_ Hc]. by apply IH.
Qed.

(** The output of a call that gets to the last line of [forward] is a
    rectangular tensor of the shape of [base]. *)
Lemma gated_output_shape self base subspaces output :
  wf_module self -> wf_tensor base ->
  gated_output self base subspaces = Ok output ->
  shape3 output = shape3 base /\ wf_tensor output.
Proof.
  intros Hself Hbase Hout.
  apply gated_output_Ok in Hout
    as (Hfeat & jss & js0 & b & Hjss & Hjs0 & Hk & Hlen & Hb & ->); [|done..].
  pose proof (lookup_lt_Some _ _ _ Hjs0) as Hpos.
  apply broadcast_dim_le in Hb as Hb'; [|lia]. subst b.
  set (cs := zip_with (fun M js => map (correction_row self js) M) (mats base) jss).
  assert (Hcs : Forall (fun c => length c = seq_len base /\ wf_rows (feat base) c) cs).
  { apply Forall_forall. intros c Hc.
    apply elem_of_lookup_zip_with in Hc as (i & M & js & -> & HM & Hjs).
    destruct (Forall_lookup_1 _ _ _ _ Hbase HM) as [HMs HMr].
    split; [by rewrite length_fmap|].
    apply Forall_fmap, Forall_forall. intros x _. simpl.
    destruct Hself as (_ & Hd & _). rewrite length_correction_row. congruence. }
  assert (Hecs : length (expand (length (mats base)) cs) = length (mats base)).
  { apply expand_length. subst cs. rewrite length_zip_with.
    unfold broadcast_dim in Hb. repeat case_decide; simplify_eq; lia. }
  split.
  - unfold shape3. cbn [mats seq_len feat]. rewrite length_zip_with, Hecs.
    do 2 f_equal. lia.
  - unfold wf_tensor. cbn [mats seq_len feat].
    apply (Forall_expand _ (length (mats base))) in Hcs.
    revert Hcs. generalize (expand (length (mats base)) cs). intros l Hl.
    clear -Hbase Hl. unfold wf_tensor in Hbase. revert l Hl.
    induction Hbase as [|M Ms [HM HMr] _ IH]; intros [|c l] Hl; csimpl;
      try constructor.
    + apply Forall_cons in Hl as [[Hc Hcr] _].
      split; [rewrite length_zip_with; lia|by apply wf_add_rows].
    + apply Forall_cons in Hl as [_ Hl]. by apply IH.
Qed.

(** X10. Whenever [forward] returns, for whatever index lists, the returned
    tensor has the shape of [base]; in evaluation mode it is rectangular. *)
Theorem forward_keeps_shape self (g g' : G) base source subspaces output :
  wf_module self -> dropout_keeps_shape self -> wf_tensor base ->
  forward self g base source (Some subspaces) = Ok (output, g') ->
  shape3 output = shape3 base /\ (training self = false -> wf_tensor output).
Proof.
  intros Hself Hdrop Hbase Hfwd. rewrite forward_gated in Hfwd.
  apply bind_Ok in Hfwd as (o & Ho & Hfwd).
  destruct (gated_output_shape self base subspaces o) as [Hshape Hwf]; [done..|].
  unfold dropout in Hfwd. destruct (training self) eqn:Htrain.
  - injection Hfwd as Hfwd. split; [|done].
    rewrite <- Hshape, <- (Hdrop g o). by rewrite Hfwd.
  - by injection Hfwd as <- <-.
Qed.

(** X11. With a single index list for a whole batch, the sum on the last
    line broadcasts: the correction computed from example 0 is added to
    every example of the batch. *)
Theorem forward_single_list self (g : G) base source (idx : list Z)
    (M0 : list (list R)) :
  wf_module self -> wf_tensor base -> feat base = embed_dim self ->
  Forall (in_range (low_rank_dimension self)) idx ->
  mats base !! 0 = Some M0 ->
  forward self g base source (Some [idx]) =
  Ok (dropout self g
        {| seq_len := seq_len base; feat := feat base;
           mats := map (fun M =>
                          zip_with (zip_with sadd) M
                            (map (correction_row self
                                    (map (coordinate (low_rank_dimension self)) idx))
                                 M0))
                       (mats base) |}).
Proof.
  intros Hself Hbase Hfeat Hidx HM0. rewrite forward_gated, gated_output_eq by done.
  rewrite decide_True by done.
  rewrite selected_in_range by (by constructor).
  pose proof (lookup_lt_Some _ _ _ HM0) as Hpos.
  rewrite decide_True by (simpl; lia).
  unfold combine. cbn [fmap list_fmap].
  rewrite decide_True by (by repeat constructor).
  cbn [length]. rewrite broadcast_dim_1_r.
  destruct (mats base) as [|M Ms] eqn:HB; [done|]. injection HM0 as ->.
  cbn [mbind result_bind mret result_ret]. do 3 f_equal.
  csimpl. destruct Ms as [|M1 Ms]; csimpl; [done|].
  f_equal. f_equal. by rewrite zip_with_replicate_r_eq.
Qed.

Lemma correction_row_nil self (x : list R) :
  all_zero (correction_row self [] x).
Proof.
  unfold correction_row. apply Forall_fmap, Forall_forall. by intros w _.
Qed.

Lemma empty_lists_valid self base :
  0 < length (mats base) ->
  valid_subspaces self base (replicate (length (mats base)) []).
Proof.
  intros Hpos. split; [done|]. split; [by rewrite length_replicate|].
  split; [by apply Forall_replicate|].
  exists 0. by apply Forall_replicate.
Qed.

(** X12. With an empty index list for every example of a batch that is not
    empty, no coordinate is selected and [forward] returns [base] (after
    dropout). *)
Theorem forward_empty_lists self (g : G) base source :
  wf_module self -> wf_tensor base -> feat base = embed_dim self ->
  0 < length (mats base) ->
  forward self g base source (Some (replicate (length (mats base)) [])) =
  Ok (dropout self g base).
Proof.
  intros Hself Hbase Hfeat Hpos.
  rewrite forward_gated, gated_output_valid by (done || by apply empty_lists_valid).
  cbn [mbind result_bind]. do 2 f_equal.
  destruct base as [s d Ms]. cbn [mats seq_len feat] in *. f_equal.
  rewrite fmap_replicate, zip_with_replicate_r_eq by done.
  apply map_id_Forall. eapply Forall_impl; [exact Hbase|].
  intros M [_ HMr]. simpl. apply map_id_Forall.
  eapply Forall_impl; [exact HMr|]. intros x Hx. simpl in Hx. simpl.
  apply add_zero_r; [apply correction_row_nil|].
  destruct Hself as (_ & Hd & _). rewrite length_correction_row. lia.
Qed.

Lemma mixed_batch_valid self base (subspaces : list (list Z)) :
  low_rank_dimension self = 8 ->
  Forall (fun idx => idx = HELLASWAG_SUBSPACE \/ idx = INSTRUCT_SUBSPACE) subspaces ->
  0 < length subspaces -> length subspaces = length (mats base) ->
  valid_subspaces self base subspaces.
Proof.
  intros Hr Htags Hpos Hlen. split; [lia|]. split; [done|]. split.
  - eapply Forall_impl; [exact Htags|]. intros idx [-> | ->]; rewrite Hr;
      repeat constructor; unfold valid_index; simpl; lia.
  - exists 4. eapply Forall_impl; [exact Htags|]. by intros idx [-> | ->].
Qed.

(** X13. A batch that mixes examples of the two tasks, each tagged with
    [HELLASWAG_SUBSPACE] or [INSTRUCT_SUBSPACE], is accepted by a module of
    rank 8: the two lists have the same length, so [forward] returns, and
    the result has the shape of the batch. *)
Theorem forward_mixed_batch self (g : G) base source (subspaces : list (list Z)) :
  wf_module self -> dropout_keeps_shape self -> wf_tensor base ->
  feat base = embed_dim self -> low_rank_dimension self = 8 ->
  Forall (fun idx => idx = HELLASWAG_SUBSPACE \/ idx = INSTRUCT_SUBSPACE) subspaces ->
  0 < length subspaces -> length subspaces = length (mats base) ->
  exists output g',
    forward self g base source (Some subspaces) = Ok (output, g') /\
    shape3 output = shape3 base.
Proof.
  intros Hself Hdrop Hbase Hfeat Hr Htags Hpos Hlen.
  pose proof (mixed_batch_valid self base subspaces Hr Htags Hpos Hlen) as Hvalid.
  pose proof (gated_output_valid self base subspaces Hself Hbase Hfeat Hvalid)
    as Hout.
  destruct (gated_output_shape self base subspaces _ Hself Hbase Hout)
    as [Hshape _].
  rewrite forward_gated, Hout. cbn [mbind result_bind].
  remember {| seq_len := seq_len base; feat := feat base;
              mats := zip_with
                (fun M js => map (fun x => zip_with sadd x (correction_row self js x)) M)
                (mats base) (map (map Z.to_nat) subspaces) |} as o eqn:Ho.
  destruct (dropout self g o) as [output g'] eqn:Hd.
  exists output, g'. split; [done|].
  rewrite <- Hshape. unfold dropout in Hd. destruct (training self).
  - pose proof (Hdrop g o) as Hs. by rewrite Hd in Hs.
  - by injection Hd as <- <-.
Qed.

End ForwardExtras.

(** ** Further properties of the preprocessing *)

Section PreprocessExtras.
Variable py_int : value -> result Z.
Variable eos_token : string.

(** The converse of [preprocess_hellaswag_Ok]. *)
Lemma preprocess_hellaswag_steps (examples : gmap string value)
    (lab endings ctx output : value) (label : Z) (n : nat) :
  examples !! "label" = Some lab -> py_int lab = Ok label ->
  examples !! "endings_de" = Some endings -> py_len endings = Ok n ->
  py_index endings (if decide (n < 4) then (-1)%Z else label) = Ok output ->
  examples !! "ctx" = Some ctx ->
  preprocess_hellaswag_de_for_reft py_int examples =
  Ok (<["subspaces" := int_list HELLASWAG_SUBSPACE]>
        (<["output" := output]> (<["instruction" := ctx]> examples))).
Proof.
  intros Hlab Hlabel Hend Hn Hout Hctx.
  unfold preprocess_hellaswag_de_for_reft, getitem.
  rewrite Hlab. cbn [mbind result_bind]. rewrite Hlabel, Hend.
  cbn [mbind result_bind]. rewrite Hn. cbn [mbind result_bind]. rewrite Hctx.
  destruct (decide (n < 4)); cbn [mbind result_bind]; by rewrite Hout.
Qed.

(** X14. The German preprocessing sets [instruction] to the [ctx] field and
    leaves every field other than [instruction], [output] and [subspaces]
    as it was. *)
Theorem preprocess_hellaswag_fields (examples examples' : gmap string value) :
  preprocess_hellaswag_de_for_reft py_int examples = Ok examples' ->
  examples' !! "instruction" = examples !! "ctx" /\
  forall k : string,
    k <> "instruction" -> k <> "output" -> k <> "subspaces" ->
    examples' !! k = examples !! k.
Proof.
  intros Hp.
  apply preprocess_hellaswag_Ok in Hp
    as (lab & label & e & n & output & ctx & _ & _ & _ & _ & _ & Hctx & ->).
  split.
  - rewrite !lookup_insert_ne by done. by rewrite lookup_insert_eq.
  - intros k H1 H2 H3. by rewrite !lookup_insert_ne.
Qed.

(** X15. A German row without a [label], [endings_de] or [ctx] field makes
    the preprocessing raise a key error (for [endings_de] and [ctx]: once
    the steps before the lookup have succeeded). *)
Theorem preprocess_hellaswag_missing_field (examples : gmap string value) :
  (examples !! "label" = None ->
   preprocess_hellaswag_de_for_reft py_int examples = Err KeyError) /\
  (forall lab label,
     examples !! "label" = Some lab -> py_int lab = Ok label ->
     examples !! "endings_de" = None ->
     preprocess_hellaswag_de_for_reft py_int examples = Err KeyError) /\
  (forall lab label endings n output,
     examples !! "label" = Some lab -> py_int lab = Ok label ->
     examples !! "endings_de" = Some endings -> py_len endings = Ok n ->
     py_index endings (if decide (n < 4) then (-1)%Z else label) = Ok output ->
     examples !! "ctx" = None ->
     preprocess_hellaswag_de_for_reft py_int examples = Err KeyError).
Proof.
  unfold preprocess_hellaswag_de_for_reft, getitem. repeat split.
  - by intros ->.
  - intros lab label -> Hlabel ->. cbn [mbind result_bind]. by rewrite Hlabel.
  - intros lab label endings n output -> Hlabel -> Hn Hout ->.
    cbn [mbind result_bind]. rewrite Hlabel. cbn [mbind result_bind].
    rewrite Hn. cbn [mbind result_bind].
    destruct (decide (n < 4)); cbn [mbind result_bind]; by rewrite Hout.
Qed.

(** X16. A German row with no endings at all, or with 4 or more endings and
    a label that is not a position of the list, makes the preprocessing
    raise an index error. *)
Theorem preprocess_hellaswag_index_error (examples : gmap string value)
    (lab : value) (label : Z) (endings : list value) :
  examples !! "label" = Some lab -> py_int lab = Ok label ->
  examples !! "endings_de" = Some (VList endings) ->
  (endings = [] \/
   (4 <= length endings /\
    (label < - Z.of_nat (length endings) \/ Z.of_nat (length endings) <= label)%Z)) ->
  preprocess_hellaswag_de_for_reft py_int examples = Err IndexError.
Proof.
  intros Hlab Hlabel Hend Hbad.
  unfold preprocess_hellaswag_de_for_reft, getitem.
  rewrite Hlab. cbn [mbind result_bind]. rewrite Hlabel, Hend.
  cbn [mbind result_bind py_len].
  destruct Hbad as [-> | [Hlen Hrange]].
  - reflexivity.
  - rewrite decide_False by lia. cbn [mbind result_bind].
    unfold py_index. rewrite !decide_False by lia. reflexivity.
Qed.

(** X17. The German preprocessing is idempotent: applied to a row it has
    produced, it returns that row. *)
Theorem preprocess_hellaswag_idempotent (examples examples' : gmap string value) :
  preprocess_hellaswag_de_for_reft py_int examples = Ok examples' ->
  preprocess_hellaswag_de_for_reft py_int examples' = Ok examples'.
Proof.
  intros Hp.
  apply preprocess_hellaswag_Ok in Hp
    as (lab & label & e & n & output & ctx & Hlab & Hlabel & He & Hn & Hout & Hctx & ->).
  rewrite (preprocess_hellaswag_steps _ lab e ctx output label n); try done;
    try (by rewrite !lookup_insert_ne).
  f_equal. apply map_eq. intros k.
  destruct (decide (k = "subspaces")) as [->|Hs].
  { by rewrite !lookup_insert_eq. }
  rewrite (lookup_insert_ne _ "subspaces" k) by done.
  destruct (decide (k = "output")) as [->|Ho].
  { rewrite lookup_insert_eq. rewrite (lookup_insert_ne _ "subspaces" "output") by done.
    by rewrite lookup_insert_eq. }
  rewrite (lookup_insert_ne _ "output" k) by done.
  destruct (decide (k = "instruction")) as [->|Hi].
  { rewrite lookup_insert_eq.
    rewrite (lookup_insert_ne _ "subspaces" "instruction") by done.
    rewrite (lookup_insert_ne _ "output" "instruction") by done.
    by rewrite lookup_insert_eq. }
  by rewrite !lookup_insert_ne by done.
Qed.

(** X18. The instruction preprocessing leaves every field other than
    [output] and [subspaces] as it was. *)
Theorem preprocess_ultrafeedback_fields (examples examples' : gmap string value) :
  preprocess_ultrafeedback_for_reft eos_token examples = Ok examples' ->
  forall k : string,
    k <> "output" -> k <> "subspaces" -> examples' !! k = examples !! k.
Proof.
  unfold preprocess_ultrafeedback_for_reft. intros Hp k H1 H2.
  apply bind_Ok in Hp as (o & _ & Hp).
  apply bind_Ok in Hp as (o' & _ & [= <-]).
  by rewrite !lookup_insert_ne.
Qed.

(** X19. An instruction row without an [output] field makes the
    preprocessing raise a key error. *)
Theorem preprocess_ultrafeedback_missing_output (examples : gmap string value) :
  examples !! "output" = None ->
  preprocess_ultrafeedback_for_reft eos_token examples = Err KeyError.
Proof.
  intros Ho. unfold preprocess_ultrafeedback_for_reft, getitem.
  rewrite lookup_insert_ne by done. by rewrite Ho.
Qed.

Lemma append_empty_r (s : string) : s +:+ EmptyString = s.
Proof.
  induction s as [|a s IH]; [done|].
  change (String a (s +:+ EmptyString) = String a s). by rewrite IH.
Qed.

Lemma append_eq_self (s t : string) : s +:+ t = s -> t = EmptyString.
Proof. intros Hs. apply (String.app_inj s). by rewrite append_empty_r. Qed.

(** X20. Applied twice, the instruction preprocessing appends the
    end-of-sequence token twice; the second application returns the row it
    was given exactly when the token is the empty string, so with a token
    that is not empty the preprocessing is not idempotent. *)
Theorem preprocess_ultrafeedback_twice (examples : gmap string value) (o : string) :
  examples !! "output" = Some (VStr o) ->
  exists examples' examples'',
    preprocess_ultrafeedback_for_reft eos_token examples = Ok examples' /\
    preprocess_ultrafeedback_for_reft eos_token examples' = Ok examples'' /\
    examples'' !! "output" = Some (VStr ((o +:+ eos_token) +:+ eos_token)) /\
    (examples'' = examples' <-> eos_token = EmptyString).
Proof.
  intros Ho. do 2 eexists. split; [|split; [|split]].
  - unfold preprocess_ultrafeedback_for_reft, getitem.
    rewrite lookup_insert_ne by done. rewrite Ho. reflexivity.
  - unfold preprocess_ultrafeedback_for_reft, getitem.
    rewrite lookup_insert_ne by done. rewrite lookup_insert_eq. reflexivity.
  - apply lookup_insert_eq.
  - split.
    + intros Heq.
      apply (f_equal (fun m : gmap string value => m !! "output")) in Heq.
      rewrite !lookup_insert_eq in Heq. injection Heq as Heq.
      by apply append_eq_self in Heq.
    + intros Heos. rewrite Heos, !append_empty_r.
      rewrite (insert_id _ "subspaces" (int_list INSTRUCT_SUBSPACE));
        [|by rewrite lookup_insert_ne, lookup_insert_eq].
      by rewrite insert_insert_eq.
Qed.

End PreprocessExtras.

(** *** The claims at concrete inputs *)

Ltac solve_shapes :=
  repeat match goal with
         | |- _ /\ _ => split
         | |- exists k : nat, Forall _ _ => eexists
         | |- Forall _ _ => constructor
         | |- valid_index _ _ => unfold valid_index; simpl; lia
         | |- _ => reflexivity || (simpl; lia)
         end.

Lemma ex_self_wf : wf_module ex_self.
Proof. unfold wf_module, wf_mat, wf_rows. solve_shapes. Qed.

Lemma ex_base_wf : wf_tensor ex_base.
Proof. unfold wf_tensor, wf_rows. solve_shapes. Qed.

Lemma ex_base'_wf : wf_tensor ex_base'.
Proof. unfold wf_tensor, wf_rows. solve_shapes. Qed.

Lemma ex_valid : valid_subspaces ex_self ex_base [[0]; [1]]%Z.
Proof. unfold valid_subspaces. solve_shapes. Qed.

Lemma forward_zero_residual_witness :
  forward ex_fit 0 ex_base None (Some [[0]; [1]]%Z) = Ok (ex_base, 0).
Proof.
  refine (proj2 (forward_zero_residual ex_fit 0 ex_base None [[0]; [1]]%Z
                   (mkT3 1 2 [[[1; 2]]; [[4; 5]]]%Z) _ _ _ _ _) _).
  - unfold wf_module, wf_mat, wf_rows. solve_shapes.
  - exact ex_base_wf.
  - reflexivity.
  - reflexivity.
  - reflexivity.
  - unfold valid_subspaces. solve_shapes.
Defined.

Lemma forward_full_range_witness :
  forward ex_self 0 ex_base None
    (Some (replicate (length (mats ex_base)) (full_range ex_self))) =
  loreft_forward ex_self 0 ex_base.
Proof.
  apply (forward_full_range ex_self 0 ex_base None).
  - exact ex_self_wf.
  - exact ex_base_wf.
  - simpl. lia.
Defined.

Lemma forward_selected_coordinates_witness :
  exists output,
    forward ex_self 0 ex_base None (Some [[0]; [1]]%Z) = Ok (output, 0) /\
    entry3 output 0 0 0 = (1 + (9 * 1 + 0))%Z /\
    entry3 output 1 0 1 = (5 + (17 * 1 + 0))%Z.
Proof.
  destruct (forward_selected_coordinates ex_self 0 ex_base None [[0]; [1]]%Z
              (mkT3 1 2 [[[9; 11]]; [[15; 17]]]%Z))
    as (output & Hfwd & Hsum).
  - exact ex_self_wf.
  - exact ex_base_wf.
  - exact ex_valid.
  - reflexivity.
  - exists output. split; [exact Hfwd|]. split.
    + destruct (Hsum 0 0 0 [0%Z]) as [Hentry _];
        [reflexivity | simpl; lia | simpl; lia | exact Hentry].
    + destruct (Hsum 1 0 1 [1%Z]) as [Hentry _];
        [reflexivity | simpl; lia | simpl; lia | exact Hentry].
Defined.

Lemma forward_example_independent_witness :
  exists r1 r2,
    forward ex_self 0 ex_base None (Some [[0]; [1]]%Z) = Ok r1 /\
    forward ex_self 5 ex_base' None (Some [[0]; [0]]%Z) = Ok r2 /\
    mats r1.1 !! 0 = mats r2.1 !! 0.
Proof.
  eexists _, _. split; [reflexivity|]. split; [reflexivity|].
  apply (forward_example_independent ex_self 0 5 ex_base ex_base' None None
           [[0]; [1]]%Z [[0]; [0]]%Z 0 [0%Z] [[1; 2; 3]]%Z).
  - exact ex_self_wf.
  - exact ex_base_wf.
  - exact ex_base'_wf.
  - reflexivity.
  - reflexivity.
  - reflexivity.
  - reflexivity.
  - reflexivity.
  - reflexivity.
  - reflexivity.
Defined.

Lemma forward_batch_shape_witness :
  exists output,
    forward ex_self 0 ex_base None (Some [[0]; [1]]%Z) =
      Ok (dropout ex_self 0 output) /\
    shape3 (dropout ex_self 0 output).1 = shape3 ex_base /\
    forall (i : nat) (idx : list Z) (M : list (list Z)),
      [[0]; [1]]%Z !! i = Some idx -> mats ex_base !! i = Some M ->
      exists o, example_output ex_self M idx = Ok o /\ mats output !! i = Some o.
Proof.
  apply (forward_batch_shape ex_self 0 ex_base None [[0]; [1]]%Z).
  - exact ex_self_wf.
  - intros g x. reflexivity.
  - exact ex_base_wf.
  - reflexivity.
  - exact ex_valid.
Defined.

(** C6 as stated fails: two non-empty lists of valid indices of different
    lengths cannot be stacked. *)
Lemma forward_ragged_counterexample :
  wf_module ex_self /\ wf_tensor ex_base /\
  length [[0]; [0; 1]]%Z = length (mats ex_base) /\
  Forall (fun idx => idx <> [] /\
                     Forall (valid_index (low_rank_dimension ex_self)) idx)
         [[0]; [0; 1]]%Z /\
  forward ex_self 0 ex_base None (Some [[0]; [0; 1]]%Z) = Err RuntimeError.
Proof.
  split; [exact ex_self_wf|]. split; [exact ex_base_wf|].
  split; [reflexivity|]. split; [|reflexivity].
  repeat constructor; (discriminate || (unfold valid_index; simpl; lia)).
Qed.

Lemma forward_pure_witness :
  load ex_run.2 ex_run.1 = Ok (mkT3 1 3 [[[10; 2; 3]]; [[4; 22; 6]]]%Z) /\
  (forall l o, objects ex_store !! l = Some o -> objects ex_run.2 !! l = Some o) /\
  (stored ex_parameters ex_train0 ex_run.2 /\
   objects ex_run.2 !! 3 = Some (OTensor ex_base)) /\
  generator ex_run.2 = generator ex_store /\
  forall source2 res2 st2,
    forward_store ex_train0 ex_parameters 3 source2 (Some [[0]; [1]]%Z) ex_run.2
      = (res2, st2) ->
    load st2 res2 = load ex_run.2 ex_run.1.
Proof.
  split; [vm_compute; reflexivity|].
  assert (stored ex_parameters ex_train0 ex_store) as Hp.
  { split; [reflexivity|]. split; reflexivity. }
  assert (objects ex_store !! 3 = Some (OTensor ex_base)) as Hbase.
  { reflexivity. }
  assert (forward_store ex_train0 ex_parameters 3 None (Some [[0]; [1]]%Z)
            ex_store = (ex_run.1, ex_run.2)) as Hrun.
  { vm_compute. reflexivity. }
  destruct (forward_pure ex_train0 ex_parameters 3 ex_base None
              (Some [[0]; [1]]%Z) ex_store ex_run.2 ex_run.1 Hp Hbase Hrun)
    as (Hframe & Hstored & _ & _ & Hpure).
  split; [exact Hframe|]. split; [exact Hstored|].
  assert (forall (g : nat) (x : Tensor3 Z),
            dropout ex_train0 g x = ((fun x => x) x, g)) as Hf.
  { intros g x. reflexivity. }
  destruct (Hpure (fun x => x) Hf) as (_ & Hg & Htwice).
  split; [exact Hg|exact Htwice].
Defined.

(** C7 as stated fails while the module is training with a positive dropout
    probability: two calls in a row on the same inputs return different
    tensors, and each call advances the generator. *)
Lemma forward_training_counterexample :
  forward ex_train 0 ex_single None (Some [[0]]%Z) =
    Ok (mkT3 1 3 [[[20; 0; 6]]]%Z, 3) /\
  forward ex_train 3 ex_single None (Some [[0]]%Z) =
    Ok (mkT3 1 3 [[[0; 4; 0]]]%Z, 6) /\
  mkT3 1 3 [[[20; 0; 6]]]%Z <> mkT3 1 3 [[[0; 4; 0]]]%Z.
Proof.
  split; [reflexivity|]. split; [reflexivity|]. discriminate.
Qed.

Lemma preprocess_subspaces_tags_witness :
  (exists examples',
     preprocess_hellaswag_de_for_reft ex_int ex_hellaswag = Ok examples' /\
     examples' !! "subspaces" = Some (int_list [0; 1; 2; 3]%Z)) /\
  (exists examples',
     preprocess_ultrafeedback_for_reft "</s>" ex_ultrafeedback = Ok examples' /\
     examples' !! "subspaces" = Some (int_list [4; 5; 6; 7]%Z)).
Proof.
  destruct (preprocess_subspaces_tags ex_int "</s>") as (Hde & Hinstruct & _).
  split; eexists; (split; [reflexivity|]).
  - apply (Hde ex_hellaswag). reflexivity.
  - apply (Hinstruct ex_ultrafeedback). reflexivity.
Defined.

Lemma preprocess_hellaswag_output_witness :
  (exists examples',
     preprocess_hellaswag_de_for_reft ex_int ex_hellaswag_short = Ok examples' /\
     examples' !! "output" = Some (VStr "b")) /\
  (exists examples',
     preprocess_hellaswag_de_for_reft ex_int ex_hellaswag = Ok examples' /\
     examples' !! "output" = Some (VStr "c")).
Proof.
  split.
  - apply (preprocess_hellaswag_output ex_int ex_hellaswag_short
             (VStr "3") (VStr "Ein Mann") 3 [VStr "a"; VStr "b"]);
      try reflexivity; (simpl; lia) || discriminate.
  - apply (preprocess_hellaswag_output ex_int ex_hellaswag
             (VStr "2") (VStr "Ein Mann") 2 [VStr "a"; VStr "b"; VStr "c"; VStr "d"]);
      try reflexivity; simpl; lia.
Defined.

Lemma preprocess_eos_token_witness :
  (exists examples',
     preprocess_ultrafeedback_for_reft "</s>" ex_ultrafeedback = Ok examples' /\
     examples' !! "output" = Some (VStr "Eat well.</s>")) /\
  (exists v,
     <["subspaces" := int_list HELLASWAG_SUBSPACE]>
       (<["output" := VStr "c"]>
          (<["instruction" := VStr "Ein Mann"]> ex_hellaswag)) !! "output"
       = Some v /\
     v ∈ [VStr "a"; VStr "b"; VStr "c"; VStr "d"]).
Proof.
  destruct (preprocess_eos_token ex_int "</s>") as [Happend Hkeep].
  split.
  - apply (Happend ex_ultrafeedback "Eat well."). reflexivity.
  - apply (Hkeep ex_hellaswag); reflexivity.
Defined.

(** *** The further properties at concrete inputs *)

Lemma ex_rank8_wf : wf_module ex_rank8.
Proof. unfold wf_module, wf_mat, wf_rows. solve_shapes. Qed.

Lemma ex_base8_wf : wf_tensor ex_base8.
Proof. unfold wf_tensor, wf_rows. solve_shapes. Qed.

Lemma ex_narrow_wf : wf_tensor ex_narrow.
Proof. unfold wf_tensor, wf_rows. solve_shapes. Qed.

Lemma forward_returns_iff_witness :
  (exists r, forward ex_self 0 ex_base None (Some [[0]; [1]]%Z) = Ok r) <->
  feat ex_base = embed_dim ex_self /\
  Forall (Forall (in_range (low_rank_dimension ex_self))) [[0]; [1]]%Z /\
  (exists k, Forall (fun idx => length idx = k) [[0]; [1]]%Z) /\
  1 <= length [[0]; [1]]%Z <= length (mats ex_base) /\
  (length [[0]; [1]]%Z = length (mats ex_base) \/ length [[0]; [1]]%Z = 1).
Proof.
  apply (forward_returns_iff ex_self 0 ex_base None [[0]; [1]]%Z).
  - exact ex_self_wf.
  - exact ex_base_wf.
Defined.

Lemma forward_wrong_feature_size_witness :
  forward ex_self 0 ex_narrow None (Some [[0]]%Z) = Err RuntimeError.
Proof.
  apply (forward_wrong_feature_size ex_self 0 ex_narrow None [[0]]%Z).
  - exact ex_self_wf.
  - exact ex_narrow_wf.
  - discriminate.
Defined.

Lemma forward_index_out_of_range_witness :
  forward ex_self 0 ex_base None (Some [[0]; [2]]%Z) = Err IndexError.
Proof.
  apply (forward_index_out_of_range ex_self 0 ex_base None [[0]; [2]]%Z).
  - exact ex_self_wf.
  - exact ex_base_wf.
  - reflexivity.
  - apply Exists_cons_tl, Exists_cons_hd, Exists_cons_hd.
    unfold in_range. simpl. lia.
Defined.

Lemma forward_more_lists_than_examples_witness :
  forward ex_self 0 ex_base None (Some [[0]; [1]; [0]]%Z) = Err IndexError.
Proof.
  apply (forward_more_lists_than_examples ex_self 0 ex_base None
           [[0]; [1]; [0]]%Z).
  - exact ex_self_wf.
  - exact ex_base_wf.
  - reflexivity.
  - simpl. lia.
Defined.

Lemma forward_ragged_lists_witness :
  forward ex_self 0 ex_base None (Some [[0]; [0; 1]]%Z) = Err RuntimeError.
Proof.
  apply (forward_ragged_lists ex_self 0 ex_base None [[0]; [0; 1]]%Z).
  - exact ex_self_wf.
  - exact ex_base_wf.
  - reflexivity.
  - repeat constructor; unfold in_range; simpl; lia.
  - simpl. lia.
  - intros [k Hk]. apply Forall_cons in Hk as [H1 Hk].
    apply Forall_cons in Hk as [H2 _]. simpl in H1, H2. lia.
Defined.

Lemma forward_no_lists_witness :
  forward ex_self 0 ex_base None (Some []) = Err RuntimeError.
Proof.
  apply (forward_no_lists ex_self 0 ex_base None).
  - exact ex_self_wf.
  - exact ex_base_wf.
Defined.

Lemma forward_negative_indices_witness :
  forward ex_self 0 ex_base None
    (Some (map (map (wrap_index (low_rank_dimension ex_self))) [[-1]; [-2]]%Z)) =
  forward ex_self 0 ex_base None (Some [[-1]; [-2]]%Z).
Proof.
  apply (forward_negative_indices ex_self 0 ex_base None [[-1]; [-2]]%Z).
  - exact ex_self_wf.
  - exact ex_base_wf.
  - repeat constructor; unfold in_range; simpl; lia.
Defined.

Lemma forward_keeps_shape_witness :
  shape3 (mkT3 1 3 [[[10; 2; 3]]; [[4; 22; 6]]]%Z) = shape3 ex_base /\
  (training ex_self = false ->
   wf_tensor (mkT3 1 3 [[[10; 2; 3]]; [[4; 22; 6]]]%Z)).
Proof.
  apply (forward_keeps_shape ex_self 0 0 ex_base None [[0]; [1]]%Z).
  - exact ex_self_wf.
  - intros g x. reflexivity.
  - exact ex_base_wf.
  - reflexivity.
Defined.

Lemma forward_single_list_witness :
  forward ex_self 0 ex_base None (Some [[0]]%Z) =
  Ok (mkT3 1 3 [[[10; 2; 3]]; [[13; 5; 6]]]%Z, 0).
Proof.
  etransitivity;
    [apply (forward_single_list ex_self 0 ex_base None [0%Z] [[1; 2; 3]]%Z)
    |reflexivity].
  - exact ex_self_wf.
  - exact ex_base_wf.
  - reflexivity.
  - repeat constructor; unfold in_range; simpl; lia.
  - reflexivity.
Defined.

Lemma forward_empty_lists_witness :
  forward ex_self 0 ex_base None (Some (replicate (length (mats ex_base)) [])) =
  Ok (dropout ex_self 0 ex_base).
Proof.
  apply (forward_empty_lists ex_self 0 ex_base None).
  - exact ex_self_wf.
  - exact ex_base_wf.
  - reflexivity.
  - simpl. lia.
Defined.

Lemma forward_mixed_batch_witness :
  exists output g',
    forward ex_rank8 0 ex_base8 None
      (Some [HELLASWAG_SUBSPACE; INSTRUCT_SUBSPACE]) = Ok (output, g') /\
    shape3 output = shape3 ex_base8.
Proof.
  apply (forward_mixed_batch ex_rank8 0 ex_base8 None
           [HELLASWAG_SUBSPACE; INSTRUCT_SUBSPACE]).
  - exact ex_rank8_wf.
  - intros g x. reflexivity.
  - exact ex_base8_wf.
  - reflexivity.
  - reflexivity.
  - apply Forall_cons_2; [by left|]. apply Forall_cons_2; [by right|].
    apply Forall_nil_2.
  - simpl. lia.
  - reflexivity.
Defined.

Lemma preprocess_hellaswag_fields_witness :
  <["subspaces" := int_list HELLASWAG_SUBSPACE]>
    (<["output" := VStr "c"]>
       (<["instruction" := VStr "Ein Mann"]> ex_hellaswag)) !! "instruction"
    = ex_hellaswag !! "ctx" /\
  forall k : string,
    k <> "instruction" -> k <> "output" -> k <> "subspaces" ->
    <["subspaces" := int_list HELLASWAG_SUBSPACE]>
      (<["output" := VStr "c"]>
         (<["instruction" := VStr "Ein Mann"]> ex_hellaswag)) !! k
    = ex_hellaswag !! k.
Proof.
  apply (preprocess_hellaswag_fields ex_int ex_hellaswag). reflexivity.
Defined.

Lemma preprocess_hellaswag_missing_field_witness :
  preprocess_hellaswag_de_for_reft ex_int ∅ = Err KeyError /\
  preprocess_hellaswag_de_for_reft ex_int (<["label" := VStr "1"]> ∅)
    = Err KeyError /\
  preprocess_hellaswag_de_for_reft ex_int
    (<["label" := VStr "1"]> (<["endings_de" := VList [VStr "a"; VStr "b"]]> ∅))
    = Err KeyError.
Proof.
  split; [|split].
  - apply (proj1 (preprocess_hellaswag_missing_field ex_int ∅)). reflexivity.
  - apply (proj1 (proj2 (preprocess_hellaswag_missing_field ex_int
                           (<["label" := VStr "1"]> ∅))) (VStr "1") 1%Z);
      reflexivity.
  - apply (proj2 (proj2 (preprocess_hellaswag_missing_field ex_int
                           (<["label" := VStr "1"]>
                              (<["endings_de" := VList [VStr "a"; VStr "b"]]> ∅))))
             (VStr "1") 1%Z (VList [VStr "a"; VStr "b"]) 2 (VStr "b"));
      reflexivity.
Defined.

Lemma preprocess_hellaswag_index_error_witness :
  preprocess_hellaswag_de_for_reft ex_int
    (<["label" := VStr "0"]> (<["endings_de" := VList []]> ∅)) = Err IndexError /\
  preprocess_hellaswag_de_for_reft ex_int
    (<["label" := VInt 4]> (<["endings_de" :=
        VList [VStr "a"; VStr "b"; VStr "c"; VStr "d"]]> ∅)) = Err IndexError.
Proof.
  split.
  - apply (preprocess_hellaswag_index_error ex_int _ (VStr "0") 0%Z []);
      try reflexivity. by left.
  - apply (preprocess_hellaswag_index_error ex_int _ (VInt 4) 4%Z
             [VStr "a"; VStr "b"; VStr "c"; VStr "d"]); try reflexivity.
    right. simpl. lia.
Defined.

Lemma preprocess_hellaswag_idempotent_witness :
  preprocess_hellaswag_de_for_reft ex_int
    (<["subspaces" := int_list HELLASWAG_SUBSPACE]>
       (<["output" := VStr "c"]>
          (<["instruction" := VStr "Ein Mann"]> ex_hellaswag))) =
  Ok (<["subspaces" := int_list HELLASWAG_SUBSPACE]>
        (<["output" := VStr "c"]>
           (<["instruction" := VStr "Ein Mann"]> ex_hellaswag))).
Proof.
  apply (preprocess_hellaswag_idempotent ex_int ex_hellaswag). reflexivity.
Defined.

Lemma preprocess_ultrafeedback_fields_witness :
  <["output" := VStr "Eat well.</s>"]>
    (<["subspaces" := int_list INSTRUCT_SUBSPACE]> ex_ultrafeedback)
    !! "instruction"
  = ex_ultrafeedback !! "instruction".
Proof.
  apply (preprocess_ultrafeedback_fields "</s>" ex_ultrafeedback).
  - reflexivity.
  - discriminate.
  - discriminate.
Defined.

Lemma preprocess_ultrafeedback_missing_output_witness :
  preprocess_ultrafeedback_for_reft "</s>" (<["instruction" := VStr "Hi"]> ∅)
  = Err KeyError.
Proof.
  apply (preprocess_ultrafeedback_missing_output "</s>"). reflexivity.
Defined.

Lemma preprocess_ultrafeedback_twice_witness :
  exists examples' examples'',
    preprocess_ultrafeedback_for_reft "</s>" ex_ultrafeedback = Ok examples' /\
    preprocess_ultrafeedback_for_reft "</s>" examples' = Ok examples'' /\
    examples'' !! "output" = Some (VStr (("Eat well." +:+ "</s>") +:+ "</s>")) /\
    (examples'' = examples' <-> "</s>" = EmptyString).
Proof.
  apply (preprocess_ultrafeedback_twice "</s>" ex_ultrafeedback). reflexivity.
Defined.
